(** * JContainers: the autorelease queue (src/autorelease_queue.h)

    A shallow embedding of [collections::autorelease_queue]: the wrap-around
    tick arithmetic ([time_add], [time_subtract]), the delay queue
    ([prolong_lifetime], [u_clear], [u_nullify]), the sweep ([tick]) and the
    versioned [load]/[save], followed by the properties of the specification
    that concern them. *)

From Stdlib Require Import ZArith List Lia Bool Permutation.
Import ListNotations.

Local Open Scope Z_scope.

(** ** Unsigned 32-bit arithmetic

    [time_point] is [uint32_t].  Values are integers in [0, 2^32); every
    arithmetic operator of the source is followed by the reduction modulo
    [2^32] that the C++ type performs. *)

Definition time_point : Type := Z.

Definition uint32_modulus : Z := 2 ^ 32.

(** [(std::numeric_limits<time_point>::max)()] *)
Definition numeric_limits_max : time_point := uint32_modulus - 1.

Definition uint32_wrap (z : Z) : time_point := z mod uint32_modulus.

Definition uint32_add (a b : time_point) : time_point := uint32_wrap (a + b).

Definition uint32_sub (a b : time_point) : time_point := uint32_wrap (a - b).

(** The values a [uint32_t] variable can hold. *)
Definition representable (t : Z) : Prop := 0 <= t <= numeric_limits_max.

(** ** The wrap-around clock *)

(** [static time_point time_subtract(time_point minuend, time_point subtrahend)] *)
Definition time_subtract (minuend subtrahend : time_point) : time_point :=
  if minuend >=? subtrahend then
    uint32_sub minuend subtrahend
  else
    uint32_sub numeric_limits_max (uint32_sub subtrahend minuend).

(** [static time_point time_add(time_point a, time_point b)] *)
Definition time_add (a b : time_point) : time_point :=
  let max := numeric_limits_max in
  if uint32_sub max a >? b then
    uint32_add a b
  else
    uint32_sub b (uint32_sub max a).

(** The two anonymous enums of the class. *)
Definition obj_lifetime : Z := 10.
Definition tick_duration : Z := 2.
Definition one_tick : Z := 1.
Definition tick_duration_millis : Z := 1000 * tick_duration.
Definition obj_lifeInTicks : Z := obj_lifetime / tick_duration.

(** ** The delay queue and its collaborators *)

Section AutoreleaseQueue.

(** [object_base] and [Handle] are declared outside this header; an object
    is known here only through the pointer that designates it. *)
Variable object_base : Type.
Variable Handle : Type.

(** Modelled from the spec: [object_registry] is only forward-declared
    here.  Its one capability used by the queue is
    [resolve(handle) -> optional<object>], the member [u_getObject]. *)
Record object_registry : Type := {
  u_getObject : Handle -> option object_base
}.

(** [queue_object_ref] is [intrusive_ptr_jc<object_base,
    object_lifetime_policy>]: a pointer that may be null and that owns one
    unit of the reference count of the object it designates. *)
Definition queue_object_ref : Type := option object_base.

Definition queue_old : Type := list (Handle * time_point).
Definition queue : Type := list (queue_object_ref * time_point).

Inductive mutex : Type := _queue_mutex | _timer_mutex.

(** What a member function does to the world outside the queue's own
    fields, in program order. *)
Inductive effect : Type :=
| retain (p : object_base)          (* object_lifetime_policy::retain *)
| release (p : object_base)         (* object_lifetime_policy::release *)
| lock (m : mutex)                  (* spinlock::guard constructed *)
| unlock (m : mutex)                (* spinlock::guard destroyed *)
| store_tickCounter (t : time_point)
| timer_cancel                      (* _timer.cancel() *)
| timer_async_wait (millis : Z).    (* expires_from_now + async_wait *)

(** The fields of the class that the member functions read and write.
    [_timer] holds the delay of the pending asynchronous wait, if any. *)
Record autorelease_queue : Type := {
  _registry : object_registry;
  _queue : queue;
  _tickCounter : time_point;
  _timer : option Z;
  _toRelease : list queue_object_ref
}.

Definition with_queue (q : queue) (s : autorelease_queue) :=
  {| _registry := _registry s; _queue := q; _tickCounter := _tickCounter s;
     _timer := _timer s; _toRelease := _toRelease s |}.

Definition with_tickCounter (t : time_point) (s : autorelease_queue) :=
  {| _registry := _registry s; _queue := _queue s; _tickCounter := t;
     _timer := _timer s; _toRelease := _toRelease s |}.

Definition with_timer (w : option Z) (s : autorelease_queue) :=
  {| _registry := _registry s; _queue := _queue s;
     _tickCounter := _tickCounter s; _timer := w;
     _toRelease := _toRelease s |}.

Definition with_toRelease (l : list queue_object_ref) (s : autorelease_queue) :=
  {| _registry := _registry s; _queue := _queue s;
     _tickCounter := _tickCounter s; _timer := _timer s; _toRelease := l |}.

(** *** A state, log and failure monad for the member functions *)

Inductive failure : Type :=
| jc_assert_failure      (* a [jc_assert] whose condition is false *)
| archive_exception.     (* the archive does not hold the item asked for *)

Inductive outcome (A : Type) : Type :=
| Returned (a : A) (s : autorelease_queue) (log : list effect)
| Failed (f : failure).

Arguments Returned {A} a s log.
Arguments Failed {A} f.

Definition M (A : Type) : Type := autorelease_queue -> outcome A.

Definition ret {A : Type} (a : A) : M A := fun s => Returned a s [].

Definition bind {A B : Type} (m : M A) (f : A -> M B) : M B :=
  fun s =>
    match m s with
    | Returned a s1 log1 =>
        match f a s1 with
        | Returned b s2 log2 => Returned b s2 (log1 ++ log2)
        | Failed e => Failed e
        end
    | Failed e => Failed e
    end.

Definition get : M autorelease_queue := fun s => Returned s s [].
Definition modify (f : autorelease_queue -> autorelease_queue) : M unit :=
  fun s => Returned tt (f s) [].
Definition emit (e : effect) : M unit := fun s => Returned tt s [e].
Definition emit_all (l : list effect) : M unit := fun s => Returned tt s l.
Definition fail {A : Type} (f : failure) : M A := fun _ => Failed f.

(** Modelled from the spec: the macro [jc_assert] is defined outside this
    header; a failed assertion is "a fatal/unrecoverable condition". *)
Definition jc_assert (condition : bool) : M unit :=
  if condition then ret tt else fail jc_assert_failure.

Notation "x <- m ;; k" := (bind m (fun x => k))
  (at level 61, m at next level, right associativity).
Notation "m ;; k" := (bind m (fun _ => k))
  (at level 61, right associativity).

(** *** Owned references *)

(** Modelled from the spec: [intrusive_ptr_jc] is defined outside this
    header.  An owned reference "contributes exactly one unit to the
    object's reference count, released exactly once": destroying a
    non-null reference calls the policy's [release], destroying a null one
    does nothing; building one from a raw pointer calls [retain].  A copy
    of a reference owns a unit of its own, so copying a non-null reference
    calls [retain]; moving a reference from one place to another calls
    neither. *)
Definition destroy_ref (r : queue_object_ref) : list effect :=
  match r with
  | Some p => [release p]
  | None => []
  end.

Definition copy_ref (r : queue_object_ref) : list effect :=
  match r with
  | Some p => [retain p]
  | None => []
  end.

Definition acquire_ref (p : object_base) : M queue_object_ref :=
  emit (retain p) ;; ret (Some p).

(** [_tickCounter = t] *)
Definition assign_tickCounter (t : time_point) : M unit :=
  emit (store_tickCounter t) ;; modify (with_tickCounter t).

(** [_queue.clear()] *)
Definition queue_clear : M unit :=
  s <- get ;;
  emit_all (flat_map (fun val => destroy_ref (fst val)) (_queue s)) ;;
  modify (with_queue []).

(** [_toRelease.clear()] *)
Definition toRelease_clear : M unit :=
  s <- get ;;
  emit_all (flat_map destroy_ref (_toRelease s)) ;;
  modify (with_toRelease []).

(** *** Member functions, in the order of the header *)

(** [void stop()] *)
Definition stop : M unit :=
  emit (lock _timer_mutex) ;;
  emit timer_cancel ;;
  modify (with_timer None) ;;
  emit (unlock _timer_mutex).

(** [void u_clear()] *)
Definition u_clear : M unit :=
  stop ;;
  assign_tickCounter 0 ;;
  queue_clear ;;
  toRelease_clear.

(** [void prolong_lifetime(object_base& object, bool isPublic)] *)
Definition prolong_lifetime (object : object_base) (isPublic : bool) : M unit :=
  s <- get ;;
  let pushedTime :=
    if isPublic then _tickCounter s
    else time_subtract (_tickCounter s) obj_lifeInTicks in
  emit (lock _queue_mutex) ;;
  ref <- acquire_ref object ;;
  modify (fun s => with_queue (_queue s ++ [(ref, pushedTime)]) s) ;;
  emit (unlock _queue_mutex).

(** [size_t u_count() const] *)
Definition u_count (s : autorelease_queue) : nat := length (_queue s).

(** [size_t count()] *)
Definition count : M nat :=
  emit (lock _queue_mutex) ;;
  s <- get ;;
  emit (unlock _queue_mutex) ;;
  ret (u_count s).

(** [void u_startTimer()]: arms the timer; the completion handler is
    [timer_handler] below. *)
Definition u_startTimer : M unit :=
  emit (timer_async_wait tick_duration_millis) ;;
  modify (with_timer (Some tick_duration_millis)).

(** [void restartTimer()] *)
Definition restartTimer : M unit :=
  emit (lock _timer_mutex) ;;
  u_startTimer ;;
  emit (unlock _timer_mutex).

(** [void start()] *)
Definition start : M unit := restartTimer.

(** Modelled from the spec: [jc_nullify] "invalidates every entry's
    reference without necessarily releasing it". *)
Definition jc_nullify (r : queue_object_ref) : queue_object_ref := None.

(** [void u_nullify()] *)
Definition u_nullify : M unit :=
  modify (fun s =>
    with_queue (map (fun val => (jc_nullify (fst val), snd val)) (_queue s)) s).

(** [time_point lifetimeDiff(time_point time) const] *)
Definition lifetimeDiff (s : autorelease_queue) (time : time_point) : time_point :=
  time_subtract (_tickCounter s) time.

(** The predicate handed to [std::remove_if] in [tick]: the value of the
    local [release]. *)
Definition tick_release (tickCounter : time_point)
    (val : queue_object_ref * time_point) : bool :=
  let diff := uint32_add (time_subtract tickCounter (snd val)) 1 in
  diff >=? obj_lifeInTicks.

(** The lambda handed to [std::remove_if] in [tick].  Its parameter is a
    [const queue::value_type&], so [std::move(val.first)] is a const rvalue
    and [_toRelease.push_back] copies the reference: the entry keeps its
    own. *)
Definition tick_lambda (val : queue_object_ref * time_point) : M bool :=
  s <- get ;;
  let release := tick_release (_tickCounter s) val in
  (if release then
     emit_all (copy_ref (fst val)) ;;
     modify (fun s => with_toRelease (_toRelease s ++ [fst val]) s)
   else
     ret tt) ;;
  ret release.

(** [std::remove_if(_queue.begin(), _queue.end(), lambda)]: the lambda is
    called once on each entry, front to back.  The result is the entries to
    keep, in order, and the entries left to [erase]. *)
Fixpoint remove_if (q : queue) : M (queue * queue) :=
  match q with
  | [] => ret ([], [])
  | val :: rest =>
      release <- tick_lambda val ;;
      r <- remove_if rest ;;
      ret (if release then (fst r, val :: snd r) else (val :: fst r, snd r))
  end.

(** [_queue.erase(std::remove_if(...), _queue.end())]: the entries to keep
    are moved to the front and the others are destroyed, each with its
    reference.  At which point of the statement the library destroys them
    is its own choice; here all calls of the lambda come first. *)
Definition erase_remove_if : M unit :=
  s <- get ;;
  r <- remove_if (_queue s) ;;
  emit_all (flat_map (fun val => destroy_ref (fst val)) (snd r)) ;;
  modify (with_queue (fst r)).

(** [void tick()] *)
Definition tick : M unit :=
  emit (lock _timer_mutex) ;;
  emit (lock _queue_mutex) ;;
  erase_remove_if ;;
  s <- get ;;
  assign_tickCounter (time_add (_tickCounter s) one_tick) ;;
  emit (unlock _queue_mutex) ;;
  toRelease_clear ;;
  u_startTimer ;;
  emit (unlock _timer_mutex).

(** The handler given to [_timer.async_wait]: [e] is the value of the
    [boost::system::error_code], zero for a successful completion. *)
Definition timer_handler (e : Z) : M unit :=
  if e =? 0 then tick else ret tt.

(** [n] sweep cycles in a row: the timer fires [n] times and nothing else
    touches the queue in between. *)
Fixpoint sweeps (n : nat) : M unit :=
  match n with
  | O => ret tt
  | S k => timer_handler 0 ;; sweeps k
  end.

(** *** Persistence *)

(** An archive is a stream of serialized items; [ar & x] moves the next
    item between the archive and [x]. *)
Inductive archive_item : Type :=
| item_time_point (t : time_point)
| item_queue (q : queue)
| item_queue_old (q : queue_old).

Definition archive : Type := list archive_item.

Definition read_time_point (ar : archive) : M (time_point * archive) :=
  match ar with
  | item_time_point t :: rest => ret (t, rest)
  | _ => fail archive_exception
  end.

Definition read_queue (ar : archive) : M (queue * archive) :=
  match ar with
  | item_queue q :: rest => ret (q, rest)
  | _ => fail archive_exception
  end.

Definition read_queue_old (ar : archive) : M (queue_old * archive) :=
  match ar with
  | item_queue_old q :: rest => ret (q, rest)
  | _ => fail archive_exception
  end.

(** [void save(Archive & ar, const unsigned int version) const] *)
Definition save (ar : archive) (version : Z) : M archive :=
  jc_assert (version =? 1) ;;
  s <- get ;;
  ret (ar ++ [item_time_point (_tickCounter s); item_queue (_queue s)]).

(** The [for (const auto& pair : old)] loop of [load]; [val] is its [pair]. *)
Fixpoint load_old (old : queue_old) : M unit :=
  match old with
  | [] => ret tt
  | val :: rest =>
      s <- get ;;
      match u_getObject (_registry s) (fst val) with
      | Some object =>
          ref <- acquire_ref object ;;
          modify (fun s => with_queue (_queue s ++ [(ref, snd val)]) s)
      | None => ret tt
      end ;;
      load_old rest
  end.

(** [ar & _queue] on loading: the entries read take the place of the
    entries the queue had, which are destroyed with their references.  What
    the archive does to the counts of the objects it hands over is outside
    this header and is not logged. *)
Definition queue_assign (q : queue) : M unit :=
  s <- get ;;
  emit_all (flat_map (fun val => destroy_ref (fst val)) (_queue s)) ;;
  modify (with_queue q).

(** [void load(Archive & ar, const unsigned int version)] *)
Definition load (ar : archive) (version : Z) : M archive :=
  r <- read_time_point ar ;;
  assign_tickCounter (fst r) ;;
  if version =? 1 then
    r1 <- read_queue (snd r) ;;
    queue_assign (fst r1) ;;
    ret (snd r1)
  else if version =? 0 then
    r0 <- read_queue_old (snd r) ;;
    load_old (fst r0) ;;
    ret (snd r0)
  else
    jc_assert false ;;
    ret (snd r).

(** [explicit autorelease_queue(object_registry& registry)]; the io service
    and the thread that runs it are outside this model, which keeps of them
    only the pending wait of [_timer]. *)
Definition construct (registry : object_registry) : outcome unit :=
  start {| _registry := registry; _queue := []; _tickCounter := 0;
           _timer := None; _toRelease := [] |}.

(** *** The class seen from its callers *)

(** The objects a list of references owns a count of: the non-null ones. *)
Definition owners (refs : list queue_object_ref) : list object_base :=
  flat_map (fun r => match r with Some p => [p] | None => [] end) refs.

(** The references the class holds: those of the entries of [_queue] and
    those parked in [_toRelease]. *)
Definition held (s : autorelease_queue) : list object_base :=
  owners (map fst (_queue s) ++ _toRelease s).

(** The objects a log calls [retain], respectively [release], on. *)
Definition retained (log : list effect) : list object_base :=
  flat_map (fun e => match e with retain p => [p] | _ => [] end) log.

Definition released (log : list effect) : list object_base :=
  flat_map (fun e => match e with release p => [p] | _ => [] end) log.

(** One use of a constructed queue: a call of a public member function that
    owns its references, or the completion of the timer's wait with error
    code [e]. *)
Inductive call : Type :=
| call_prolong_lifetime (object : object_base) (isPublic : bool)
| call_count
| call_start
| call_stop
| call_u_clear
| call_timer_handler (e : Z).

Definition run_call (c : call) : M unit :=
  match c with
  | call_prolong_lifetime object isPublic => prolong_lifetime object isPublic
  | call_count => count ;; ret tt
  | call_start => start
  | call_stop => stop
  | call_u_clear => u_clear
  | call_timer_handler e => timer_handler e
  end.

(** The uses of a history, one after the other. *)
Fixpoint run_calls (history : list call) : M unit :=
  match history with
  | [] => ret tt
  | c :: rest => run_call c ;; run_calls rest
  end.

(** The queue as the constructor leaves it. *)
Definition constructed (registry : object_registry) : autorelease_queue :=
  {| _registry := registry; _queue := []; _tickCounter := 0;
     _timer := Some tick_duration_millis; _toRelease := [] |}.

End AutoreleaseQueue.

Arguments Returned {object_base Handle A} a s log.
Arguments Failed {object_base Handle A} f.
Arguments release {object_base} p.
Arguments retain {object_base} p.
Arguments lock {object_base} m.
Arguments unlock {object_base} m.
Arguments store_tickCounter {object_base} t.
Arguments timer_cancel {object_base}.
Arguments timer_async_wait {object_base} millis.
Arguments _registry {object_base Handle} a.
Arguments _queue {object_base Handle} a.
Arguments _tickCounter {object_base Handle} a.
Arguments _timer {object_base Handle} a.
Arguments _toRelease {object_base Handle} a.
Arguments u_getObject {object_base Handle} o h.
Arguments destroy_ref {object_base} r.
Arguments stop {object_base Handle} s.
Arguments u_clear {object_base Handle} s.
Arguments prolong_lifetime {object_base Handle} object isPublic s.
Arguments u_count {object_base Handle} s.
Arguments count {object_base Handle} s.
Arguments tick_release {object_base} tickCounter val.
Arguments copy_ref {object_base} r.
Arguments tick_lambda {object_base Handle} val s.
Arguments remove_if {object_base Handle} q s.
Arguments erase_remove_if {object_base Handle} s.
Arguments tick {object_base Handle} s.
Arguments timer_handler {object_base Handle} e s.
Arguments sweeps {object_base Handle} n s.
Arguments item_time_point {object_base Handle} t.
Arguments item_queue {object_base Handle} q.
Arguments item_queue_old {object_base Handle} q.
Arguments load {object_base Handle} ar version s.
Arguments load_old {object_base Handle} old s.
Arguments save {object_base Handle} ar version s.
Arguments construct {object_base Handle} registry.
Arguments owners {object_base} refs.
Arguments held {object_base Handle} s.
Arguments retained {object_base} log.
Arguments released {object_base} log.
Arguments call_prolong_lifetime {object_base} object isPublic.
Arguments call_count {object_base}.
Arguments call_start {object_base}.
Arguments call_stop {object_base}.
Arguments call_u_clear {object_base}.
Arguments call_timer_handler {object_base} e.
Arguments run_call {object_base Handle} c s.
Arguments run_calls {object_base Handle} history s.
Arguments constructed {object_base Handle} registry.
Arguments lifetimeDiff {object_base Handle} s time.
Arguments start {object_base Handle} s.
Arguments u_nullify {object_base Handle} s.

(** ** Sample instances

    Objects and handles are natural numbers here; the registry resolves the
    even handles. *)

Definition sample_registry : object_registry nat nat :=
  {| u_getObject := fun h => if Nat.even h then Some (Nat.div2 h) else None |}.

Definition sample_queue (tickCounter : time_point) : autorelease_queue nat nat :=
  {| _registry := sample_registry;
     _queue := [(Some 7%nat, 3)];
     _tickCounter := tickCounter;
     _timer := Some tick_duration_millis;
     _toRelease := [] |}.

Definition sample_queue_old : queue_old nat :=
  [(4%nat, 10); (5%nat, 10); (6%nat, 9)].

(** * Properties of the wrap-around clock *)

Section ClockProperties.

Lemma representable_bounds (t : Z) :
  representable t <-> 0 <= t <= 4294967295.
Proof. unfold representable, numeric_limits_max, uint32_modulus. lia. Qed.

Lemma numeric_limits_max_value : numeric_limits_max = 4294967295.
Proof. reflexivity. Qed.

Lemma uint32_sub_exact (a b : Z) :
  0 <= b <= a -> a <= numeric_limits_max -> uint32_sub a b = a - b.
Proof.
  intros Hb Ha. unfold uint32_sub, uint32_wrap.
  rewrite numeric_limits_max_value in Ha.
  apply Z.mod_small. unfold uint32_modulus. lia.
Qed.

Lemma uint32_add_exact (a b : Z) :
  0 <= a -> 0 <= b -> a + b <= numeric_limits_max -> uint32_add a b = a + b.
Proof.
  intros Ha Hb Hab. unfold uint32_add, uint32_wrap.
  rewrite numeric_limits_max_value in Hab.
  apply Z.mod_small. unfold uint32_modulus. lia.
Qed.

(** [time_subtract] without the machine arithmetic. *)
Lemma time_subtract_cases (minuend subtrahend : Z) :
  representable minuend -> representable subtrahend ->
  time_subtract minuend subtrahend =
    if minuend >=? subtrahend then minuend - subtrahend
    else numeric_limits_max - (subtrahend - minuend).
Proof.
  unfold representable, time_subtract. intros Hm Hs.
  destruct (Z.geb_spec minuend subtrahend) as [Hge | Hlt].
  - apply uint32_sub_exact; lia.
  - rewrite (uint32_sub_exact subtrahend minuend) by lia.
    apply uint32_sub_exact; lia.
Qed.

(** [time_add] without the machine arithmetic: the sum is reduced by
    [max], not by [2^32], as soon as it reaches [max]. *)
Lemma time_add_cases (a b : Z) :
  representable a -> representable b ->
  time_add a b =
    if a + b <? numeric_limits_max then a + b
    else a + b - numeric_limits_max.
Proof.
  unfold representable, time_add. intros Ha Hb. cbv zeta.
  rewrite (uint32_sub_exact numeric_limits_max a) by lia.
  destruct (Z.gtb_spec (numeric_limits_max - a) b) as [Hgt | Hle];
    destruct (Z.ltb_spec (a + b) numeric_limits_max) as [Hlt | Hge];
    try lia.
  - apply uint32_add_exact; lia.
  - rewrite uint32_sub_exact by lia. lia.
Qed.

Lemma time_subtract_representable (a b : Z) :
  representable a -> representable b -> representable (time_subtract a b).
Proof.
  intros Ha Hb. rewrite time_subtract_cases by assumption.
  unfold representable in *. destruct (Z.geb_spec a b); lia.
Qed.

Lemma time_add_representable (a b : Z) :
  representable a -> representable b -> representable (time_add a b).
Proof.
  intros Ha Hb. rewrite time_add_cases by assumption.
  unfold representable in *.
  destruct (Z.ltb_spec (a + b) numeric_limits_max); lia.
Qed.

(** When the minuend is the smaller one, the result is the distance
    counted around a cycle of length [max]. *)
Lemma time_subtract_underflow (minuend subtrahend : Z) :
  representable minuend -> representable subtrahend ->
  minuend < subtrahend ->
  time_subtract minuend subtrahend =
    numeric_limits_max - (subtrahend - minuend).
Proof.
  intros Hm Hs Hlt. rewrite time_subtract_cases by assumption.
  destruct (Z.geb_spec minuend subtrahend); lia.
Qed.

(** C1, as the specification states it, fails when [a] is the largest
    value: [time_add max 0] is [0], and [time_subtract 0 0] is [0], not
    [max]. *)
Lemma inversion_law_fails_at_max :
  representable numeric_limits_max /\ representable 0 /\
  ~ (time_subtract (time_add numeric_limits_max 0) 0 = numeric_limits_max /\
     time_subtract (time_add numeric_limits_max 0) numeric_limits_max = 0).
Proof.
  split; [ | split ].
  - apply representable_bounds. rewrite numeric_limits_max_value. lia.
  - apply representable_bounds. lia.
  - intros [H _]. vm_compute in H. discriminate H.
Qed.

(** C1 (amended): for representable [a] and [b],
    [time_subtract (time_add a b) b = a] holds exactly when [a] is not the
    largest value [max], and [time_subtract (time_add a b) a = b] holds
    exactly when [b] is not [max]; so the inversion law holds for all
    [a], [b] below [max]. *)
Theorem inversion_law_below_max (a b : Z)
    (Ha : representable a) (Hb : representable b) :
  (time_subtract (time_add a b) b = a <-> a <> numeric_limits_max) /\
  (time_subtract (time_add a b) a = b <-> b <> numeric_limits_max).
Proof.
  pose proof (time_add_representable a b Ha Hb) as Hc.
  rewrite !time_subtract_cases by assumption.
  rewrite time_add_cases by assumption.
  unfold representable in Ha, Hb. rewrite numeric_limits_max_value in *.
  destruct (Z.ltb_spec (a + b) 4294967295) as [Hlt | Hge].
  - destruct (Z.geb_spec (a + b) b), (Z.geb_spec (a + b) a); lia.
  - destruct (Z.geb_spec (a + b - 4294967295) b),
      (Z.geb_spec (a + b - 4294967295) a); lia.
Qed.

Lemma inversion_law_below_max_witness :
  representable 8 /\ representable 9 /\
  (time_subtract (time_add 8 9) 9 = 8 <-> 8 <> numeric_limits_max) /\
  (time_subtract (time_add 8 9) 8 = 9 <-> 9 <> numeric_limits_max).
Proof.
  assert (H8 : representable 8) by (apply representable_bounds; lia).
  assert (H9 : representable 9) by (apply representable_bounds; lia).
  split; [ exact H8 | split; [ exact H9 | ] ].
  exact (inversion_law_below_max 8 9 H8 H9).
Defined.

(** C3, as the specification states it, fails: [time_subtract 0 1] is
    [max - 1]. *)
Lemma subtract_underflow_not_max :
  ~ (time_subtract 0 1 = numeric_limits_max /\
     time_subtract 10 20 = numeric_limits_max - 10).
Proof. intros [H _]. vm_compute in H. discriminate H. Qed.

(** C3 (amended): [time_subtract 0 1 = max - 1] and
    [time_subtract 10 20 = max - 10], the values the test
    [time_wrapping] of the header expects. *)
Theorem subtract_underflow_values :
  time_subtract 0 1 = numeric_limits_max - 1 /\
  time_subtract 10 20 = numeric_limits_max - 10.
Proof. split; reflexivity. Qed.

(** C4, as the specification states it, fails: [time_add max max] is
    [max], not [max - 1]. *)
Lemma add_boundary_not_max_minus_one :
  ~ ((time_add numeric_limits_max 1 = 0 \/
      time_add numeric_limits_max 1 = 1) /\
     time_add numeric_limits_max numeric_limits_max =
       numeric_limits_max - 1).
Proof. intros [_ H]. vm_compute in H. discriminate H. Qed.

(** C4 (amended): [time_add max 1 = 1] and [time_add max max = max], the
    values the test [time_wrapping] of the header expects. *)
Theorem add_boundary_values :
  time_add numeric_limits_max 1 = 1 /\
  time_add numeric_limits_max numeric_limits_max = numeric_limits_max.
Proof. split; reflexivity. Qed.

(** The remaining expectations of the test [time_wrapping]. *)
Example time_wrapping_test :
  time_add numeric_limits_max 0 = 0 /\
  time_add numeric_limits_max 10 = 10 /\
  (let a := 40 in let b := 20 in
   let c := time_subtract b a in
   b = time_add a c /\ a = time_subtract b c) /\
  (let a := 8 in let b := 9 in
   let c := time_add a b in
   a = time_subtract c b /\ b = time_subtract c a).
Proof. repeat split. Qed.

(** One counter advance, [time_add counter one_tick]. *)
Lemma advance_cases (c : Z) :
  representable c ->
  time_add c one_tick =
    if c <? numeric_limits_max - 1 then c + 1
    else if c =? numeric_limits_max - 1 then 0 else 1.
Proof.
  intros Hc. rewrite time_add_cases; [ | assumption | ].
  - unfold representable in Hc. unfold one_tick.
    rewrite numeric_limits_max_value in *.
    destruct (Z.ltb_spec (c + 1) 4294967295),
      (Z.ltb_spec c (4294967295 - 1)); try lia.
    destruct (Z.eqb_spec c (4294967295 - 1)); lia.
  - apply representable_bounds. unfold one_tick. lia.
Qed.

Lemma advance_below_max (c : Z) :
  representable c -> 0 <= time_add c one_tick < numeric_limits_max.
Proof.
  intros Hc. rewrite advance_cases by assumption.
  unfold representable in Hc. rewrite numeric_limits_max_value in *.
  destruct (Z.ltb_spec c (4294967295 - 1)); [ lia | ].
  destruct (Z.eqb_spec c (4294967295 - 1)); lia.
Qed.

(** After [k] counter advances, fewer than [max], the distance from the
    starting value measured by [time_subtract] is [k], wherever the
    counter wraps in between. *)
Lemma elapsed_after_advances (k : nat) (T : Z) :
  representable T -> Z.of_nat k < numeric_limits_max ->
  let c := Nat.iter k (fun c => time_add c one_tick) T in
  representable c /\
  ((1 <= k)%nat -> c < numeric_limits_max) /\
  time_subtract c T = Z.of_nat k.
Proof.
  intros HT. induction k as [ | k IH ]; intros Hk; cbv zeta.
  - simpl. split; [ assumption | split; [ lia | ] ].
    rewrite time_subtract_cases by assumption.
    destruct (Z.geb_spec T T); lia.
  - rewrite Nat.iter_succ.
    destruct IH as (Hc & Hlt & Hsub); [ lia | ].
    set (c := Nat.iter k (fun c => time_add c one_tick) T) in *.
    pose proof (advance_below_max c Hc) as Hadv.
    assert (Hrep : representable (time_add c one_tick))
      by (unfold representable; lia).
    split; [ assumption | split; [ lia | ] ].
    rewrite time_subtract_cases in Hsub |- * by assumption.
    rewrite advance_cases in * by assumption.
    unfold representable in HT, Hc.
    rewrite numeric_limits_max_value in *.
    destruct (Z.geb_spec c T) as [Hge | Hlo];
      destruct (Z.ltb_spec c (4294967295 - 1)) as [H1 | H1];
      try destruct (Z.eqb_spec c (4294967295 - 1)) as [H2 | H2];
      match goal with
      | |- context [ ?x >=? T ] => destruct (Z.geb_spec x T)
      end; lia.
Qed.

End ClockProperties.

Arguments with_queue {object_base Handle} q s.
Arguments with_tickCounter {object_base Handle} t s.
Arguments with_timer {object_base Handle} w s.
Arguments with_toRelease {object_base Handle} l s.

(** * Properties of the queue, the sweep and the persistence *)

Section QueueProperties.

Context {object_base Handle : Type}.

Local Abbreviation state := (autorelease_queue object_base Handle).
Local Abbreviation entry := (queue_object_ref object_base * time_point)%type.

Lemma flat_map_fst {A B C : Type} (f : A -> list C) (l : list (A * B)) :
  flat_map (fun val => f (fst val)) l = flat_map f (map fst l).
Proof.
  induction l as [ | val l IH ]; simpl; [ | rewrite IH ]; reflexivity.
Qed.

(** The pass of [std::remove_if] always returns: it sorts the entries, in
    order, into those for which the predicate is false and the others, and
    for each of the others it puts a copy of the reference at the end of
    [_toRelease]. *)
Lemma remove_if_returns (q : list entry) :
  forall s : state,
    remove_if q s =
      Returned
        (filter (fun val => negb (tick_release (_tickCounter s) val)) q,
         filter (tick_release (_tickCounter s)) q)
        (with_toRelease
           (_toRelease s ++ map fst (filter (tick_release (_tickCounter s)) q))
           s)
        (flat_map copy_ref
           (map fst (filter (tick_release (_tickCounter s)) q))).
Proof.
  induction q as [ | val rest IH ]; intros s.
  - simpl. unfold ret, with_toRelease. rewrite app_nil_r. now destruct s.
  - simpl remove_if. unfold bind at 1. unfold tick_lambda, bind, get.
    destruct (tick_release (_tickCounter s) val) eqn:Hrel; simpl.
    + rewrite IH. simpl. rewrite Hrel. simpl.
      unfold with_toRelease. simpl.
      now rewrite <- !app_assoc, !app_nil_r.
    + rewrite IH. simpl. rewrite Hrel. simpl. now rewrite app_nil_r.
Qed.

(** One sweep always returns; its final state and its log. *)
Lemma tick_returns (s : state) :
  tick s =
    Returned tt
      {| _registry := _registry s;
         _queue :=
           filter (fun val => negb (tick_release (_tickCounter s) val))
                  (_queue s);
         _tickCounter := time_add (_tickCounter s) one_tick;
         _timer := Some tick_duration_millis;
         _toRelease := [] |}
      ([lock _timer_mutex; lock _queue_mutex]
         ++ flat_map copy_ref
              (map fst (filter (tick_release (_tickCounter s)) (_queue s)))
         ++ flat_map destroy_ref
              (map fst (filter (tick_release (_tickCounter s)) (_queue s)))
         ++ [store_tickCounter (time_add (_tickCounter s) one_tick);
             unlock _queue_mutex]
         ++ flat_map destroy_ref
              (_toRelease s
                 ++ map fst (filter (tick_release (_tickCounter s)) (_queue s)))
         ++ [timer_async_wait tick_duration_millis; unlock _timer_mutex]).
Proof.
  unfold tick, erase_remove_if, bind, emit, get. simpl.
  rewrite remove_if_returns. simpl.
  rewrite flat_map_fst, !app_nil_r, <- !app_assoc. reflexivity.
Qed.

Lemma prolong_lifetime_returns (s : state) (object : object_base)
    (isPublic : bool) :
  prolong_lifetime object isPublic s =
    Returned tt
      (with_queue
         (_queue s ++
            [(Some object,
              if isPublic then _tickCounter s
              else time_subtract (_tickCounter s) obj_lifeInTicks)])
         s)
      [lock _queue_mutex; retain object; unlock _queue_mutex].
Proof. reflexivity. Qed.

Lemma sweeps_succ (n : nat) (s : state) :
  sweeps (S n) s =
    match tick s with
    | Returned _ s1 log1 =>
        match sweeps n s1 with
        | Returned b s2 log2 => Returned b s2 (log1 ++ log2)
        | Failed e => Failed e
        end
    | Failed e => Failed e
    end.
Proof. reflexivity. Qed.

(** [n] sweeps in a row always return.  The counter has been advanced [n]
    times, and the entries left are those of the initial queue that none of
    the [n] sweeps found due. *)
Lemma sweeps_returns (n : nat) :
  forall s : state,
  exists s' log,
    sweeps n s = Returned tt s' log /\
    _tickCounter s' =
      Nat.iter n (fun c => time_add c one_tick) (_tickCounter s) /\
    (forall e : entry,
        In e (_queue s') <->
        In e (_queue s) /\
        forall k, (k < n)%nat ->
          tick_release
            (Nat.iter k (fun c => time_add c one_tick) (_tickCounter s)) e
            = false).
Proof.
  induction n as [ | n IH ]; intros s.
  - exists s, []. split; [ reflexivity | split; [ reflexivity | ] ].
    intros e. split; [ intros H; split; [ exact H | lia ] | tauto ].
  - rewrite sweeps_succ, tick_returns.
    match goal with
    | |- context [ sweeps n ?s1 ] =>
        destruct (IH s1) as (s' & log & Hrun & Hc & Hq); rewrite Hrun
    end.
    simpl in Hc, Hq.
    eexists; eexists. split; [ reflexivity | split ].
    + rewrite Hc, Nat.iter_succ_r. reflexivity.
    + intros e. rewrite Hq, filter_In, negb_true_iff.
      split.
      * intros [[Hin H0] Hk]. split; [ exact Hin | ].
        intros [ | k ] Hlt; [ exact H0 | ].
        rewrite Nat.iter_succ_r. apply Hk. lia.
      * intros [Hin Hk]. split; [ split; [ exact Hin | ] | ].
        -- apply (Hk 0%nat). lia.
        -- intros k Hlt. assert (Hlt' : (S k < S n)%nat) by lia.
           specialize (Hk (S k) Hlt'). rewrite Nat.iter_succ_r in Hk.
           exact Hk.
Qed.

(** The sweep predicate for an entry pushed at [T], seen [k] advances
    later: the entry is due exactly when [k + 1] reaches
    [obj_lifeInTicks]. *)
Lemma tick_release_after (k : nat) (T : Z) (ref : queue_object_ref object_base) :
  representable T -> Z.of_nat k < numeric_limits_max ->
  tick_release (Nat.iter k (fun c => time_add c one_tick) T) (ref, T) =
    (Z.of_nat k + 1 >=? obj_lifeInTicks).
Proof.
  intros HT Hk. unfold tick_release. simpl.
  destruct (elapsed_after_advances k T HT Hk) as (_ & _ & Hsub).
  rewrite Hsub, uint32_add_exact; [ reflexivity | lia | lia | lia ].
Qed.

(** [n + 1] sweeps are [n] sweeps followed by one more. *)
Lemma sweeps_snoc (n : nat) :
  forall s : state,
    sweeps (S n) s =
      match sweeps n s with
      | Returned _ s1 log1 =>
          match tick s1 with
          | Returned b s2 log2 => Returned b s2 (log1 ++ log2)
          | Failed e => Failed e
          end
      | Failed e => Failed e
      end.
Proof.
  induction n as [ | n IH ]; intros s.
  - rewrite sweeps_succ. simpl sweeps. unfold ret.
    rewrite tick_returns. now rewrite app_nil_r.
  - rewrite sweeps_succ, (sweeps_succ n s), tick_returns.
    match goal with
    | |- context [ sweeps (S n) ?s1 ] =>
        rewrite (IH s1);
        destruct (sweeps_returns n s1) as (s' & log & Hrun & _);
        rewrite Hrun
    end.
    rewrite tick_returns. now rewrite app_assoc.
Qed.

Lemma release_in_tick_log (s : state) (p : object_base) (pushed : Z) :
  In (Some p, pushed) (_queue s) ->
  tick_release (_tickCounter s) (Some p, pushed) = true ->
  forall s' log, tick s = Returned tt s' log ->
    In (release p) log /\ ~ In (Some p, pushed) (_queue s').
Proof.
  intros Hin Hdue s' log Hrun. rewrite tick_returns in Hrun.
  injection Hrun as Hs Hlog. subst s' log. split.
  - simpl. do 2 right. apply in_or_app. right. apply in_or_app. left.
    apply in_flat_map. exists (Some p). split; [ | now left ].
    change (Some p) with (fst (Some p, pushed)).
    apply in_map, filter_In. now split.
  - simpl. rewrite filter_In, Hdue. intros [_ H]. discriminate H.
Qed.

(** The objects on which a log calls [release], in order. *)
Lemma released_by_destroying (refs : list (queue_object_ref object_base)) :
  flat_map (fun e => match e with release p => [p] | _ => [] end)
           (flat_map destroy_ref refs)
  = flat_map (fun r => match r with Some p => [p] | None => [] end) refs.
Proof.
  induction refs as [ | [p | ] refs IH ]; simpl; [ | rewrite IH | ];
    congruence.
Qed.

Lemma owners_app (l1 l2 : list (queue_object_ref object_base)) :
  owners (l1 ++ l2) = owners l1 ++ owners l2.
Proof. apply flat_map_app. Qed.

Lemma released_app (l1 l2 : list (effect object_base)) :
  released (l1 ++ l2) = released l1 ++ released l2.
Proof. apply flat_map_app. Qed.

Lemma retained_app (l1 l2 : list (effect object_base)) :
  retained (l1 ++ l2) = retained l1 ++ retained l2.
Proof. apply flat_map_app. Qed.

Lemma released_cons (e : effect object_base) (l : list (effect object_base)) :
  released (e :: l) =
    match e with release p => [p] | _ => [] end ++ released l.
Proof. reflexivity. Qed.

Lemma retained_cons (e : effect object_base) (l : list (effect object_base)) :
  retained (e :: l) =
    match e with retain p => [p] | _ => [] end ++ retained l.
Proof. reflexivity. Qed.

Lemma released_nil : released (@nil (effect object_base)) = [].
Proof. reflexivity. Qed.

Lemma retained_nil : retained (@nil (effect object_base)) = [].
Proof. reflexivity. Qed.

Ltac split_log :=
  repeat first
    [ rewrite released_cons | rewrite retained_cons
    | rewrite released_app | rewrite retained_app
    | rewrite released_nil | rewrite retained_nil ];
  cbn [app].

Lemma released_destroy (refs : list (queue_object_ref object_base)) :
  released (flat_map destroy_ref refs) = owners refs.
Proof. apply released_by_destroying. Qed.

Lemma retained_destroy (refs : list (queue_object_ref object_base)) :
  retained (flat_map destroy_ref refs) = [].
Proof.
  induction refs as [ | [p | ] refs IH ]; simpl; assumption || reflexivity.
Qed.

Lemma filter_split {A : Type} (f : A -> bool) (l : list A) :
  Permutation (filter f l ++ filter (fun x => negb (f x)) l) l.
Proof.
  induction l as [ | x l IH ]; simpl; [ constructor | ].
  destruct (f x); simpl.
  - now constructor.
  - rewrite <- Permutation_middle. now constructor.
Qed.

Lemma retained_copy (refs : list (queue_object_ref object_base)) :
  retained (flat_map copy_ref refs) = owners refs.
Proof.
  induction refs as [ | [p | ] refs IH ]; simpl; [ | rewrite IH | ];
    congruence.
Qed.

Lemma released_copy (refs : list (queue_object_ref object_base)) :
  released (flat_map copy_ref refs) = [].
Proof.
  induction refs as [ | [p | ] refs IH ]; simpl; assumption || reflexivity.
Qed.

(** C2: [obj_lifeInTicks] is 5.  An entry enqueued by
    [prolong_lifetime] with [isPublic = true] at tick [T] is still in the
    queue after every number of sweeps below [obj_lifeInTicks]; the sweep
    number [obj_lifeInTicks] finds it due, releases its reference and
    removes it.  With [T = 0] the counter is 4 after the fourth sweep and
    5 after the fifth.  Each sweep keeps exactly the entries for which
    [time_subtract(_tickCounter, pushedTick) + 1 >= obj_lifeInTicks] is
    false and then advances the counter by [time_add(_, one_tick)].  Under
    both locks and before the counter is stored it retains the object of
    each entry it removes once (the copy put in [_toRelease]) and releases
    it once (the entry's own reference); after [_queue_mutex] is unlocked
    it releases what [_toRelease] holds, the copies included. *)
Theorem public_entry_expiry (s : state) (X : object_base)
    (HT : representable (_tickCounter s)) :
  let T := _tickCounter s in
  let lifetime := Z.to_nat obj_lifeInTicks in
  obj_lifeInTicks = 5 /\
  exists s0 log0,
    prolong_lifetime X true s = Returned tt s0 log0 /\
    (forall n, (n < lifetime)%nat ->
       exists sn logn,
         sweeps n s0 = Returned tt sn logn /\ In (Some X, T) (_queue sn)) /\
    (exists s4 log4 s5 log5,
        sweeps (lifetime - 1) s0 = Returned tt s4 log4 /\
        tick s4 = Returned tt s5 log5 /\
        sweeps lifetime s0 = Returned tt s5 (log4 ++ log5) /\
        In (Some X, T) (_queue s4) /\
        tick_release (_tickCounter s4) (Some X, T) = true /\
        In (release X) log5 /\
        ~ In (Some X, T) (_queue s5) /\
        (T = 0 -> _tickCounter s4 = 4 /\ _tickCounter s5 = 5)) /\
    (forall st : state,
       let due :=
         filter
           (fun val =>
              uint32_add (time_subtract (_tickCounter st) (snd val)) 1
                >=? obj_lifeInTicks)
           (_queue st) in
       exists st' log inner,
         tick st = Returned tt st' log /\
         _queue st' =
           filter
             (fun val =>
                negb (uint32_add (time_subtract (_tickCounter st) (snd val)) 1
                        >=? obj_lifeInTicks))
             (_queue st) /\
         _tickCounter st' = time_add (_tickCounter st) one_tick /\
         log =
           [lock _timer_mutex; lock _queue_mutex]
             ++ inner
             ++ [store_tickCounter (time_add (_tickCounter st) one_tick);
                 unlock _queue_mutex]
             ++ flat_map destroy_ref (_toRelease st ++ map fst due)
             ++ [timer_async_wait tick_duration_millis; unlock _timer_mutex] /\
         Forall (fun e => exists p, e = retain p \/ e = release p) inner /\
         Permutation (retained inner) (owners (map fst due)) /\
         Permutation (released inner) (owners (map fst due))).
Proof.
  intros T lifetime. split; [ reflexivity | ].
  change lifetime with 5%nat. clear lifetime.
  rewrite prolong_lifetime_returns. fold T.
  set (s0 := with_queue (_queue s ++ [(Some X, T)]) s).
  assert (Hin0 : In (Some X, T) (_queue s0))
    by (apply in_or_app; right; now left).
  assert (Hsurvive : forall n, (n < 5)%nat ->
            exists sn logn,
              sweeps n s0 = Returned tt sn logn /\
              In (Some X, T) (_queue sn) /\
              _tickCounter sn = Nat.iter n (fun c => time_add c one_tick) T).
  { intros n Hn.
    destruct (sweeps_returns n s0) as (sn & logn & Hrun & Hc & Hq).
    exists sn, logn. split; [ exact Hrun | split; [ | exact Hc ] ].
    apply Hq. split; [ exact Hin0 | ].
    intros k Hk. simpl _tickCounter. fold T.
    rewrite tick_release_after;
      [ | exact HT | rewrite numeric_limits_max_value; lia ].
    rewrite Z.geb_leb. apply Z.leb_gt.
    change obj_lifeInTicks with 5. lia. }
  exists s0, [lock _queue_mutex; retain X; unlock _queue_mutex].
  split; [ reflexivity | split; [ | split ] ].
  - intros n Hn. destruct (Hsurvive n Hn) as (sn & logn & Hrun & Hin & _).
    now exists sn, logn.
  - destruct (Hsurvive 4%nat) as (s4 & log4 & Hrun4 & Hin4 & Hc4); [ lia | ].
    assert (Hdue : tick_release (_tickCounter s4) (Some X, T) = true).
    { rewrite Hc4, tick_release_after;
        [ reflexivity | exact HT | rewrite numeric_limits_max_value; lia ]. }
    pose proof (tick_returns s4) as Hrun5.
    match type of Hrun5 with
    | _ = Returned tt ?st ?lg =>
        set (s5 := st) in *; set (log5 := lg) in *
    end.
    destruct (release_in_tick_log s4 X T Hin4 Hdue s5 log5 Hrun5)
      as [Hrel Hgone].
    exists s4, log4, s5, log5. simpl Nat.sub.
    repeat split; try assumption.
    + now rewrite sweeps_snoc, Hrun4, Hrun5.
    + rewrite Hc4, H. reflexivity.
    + subst s5. simpl. rewrite Hc4, H. reflexivity.
  - intros st due. rewrite tick_returns.
    change (filter (tick_release (_tickCounter st)) (_queue st)) with due.
    exists
      {| _registry := _registry st;
         _queue :=
           filter (fun val => negb (tick_release (_tickCounter st) val))
                  (_queue st);
         _tickCounter := time_add (_tickCounter st) one_tick;
         _timer := Some tick_duration_millis;
         _toRelease := [] |}.
    eexists.
    exists (flat_map copy_ref (map fst due)
              ++ flat_map destroy_ref (map fst due)).
    split; [ reflexivity | ].
    split; [ reflexivity | split; [ reflexivity | ] ].
    split; [ now rewrite <- !app_assoc | ].
    split; [ | split ].
    + apply Forall_app. split; apply Forall_forall; intros e He;
        apply in_flat_map in He; destruct He as ([p | ] & _ & He);
        simpl in He; try contradiction;
        destruct He as [<- | []]; exists p; [ now left | now right ].
    + rewrite retained_app, retained_copy, retained_destroy, app_nil_r.
      apply Permutation_refl.
    + rewrite released_app, released_copy, released_destroy.
      apply Permutation_refl.
Qed.

(** The distance from a back-dated tick to the tick it was taken from is
    [obj_lifeInTicks], also when the back-dating wraps around. *)
Lemma backdated_distance (T : Z) :
  representable T ->
  representable (time_subtract T obj_lifeInTicks) /\
  time_subtract T (time_subtract T obj_lifeInTicks) = obj_lifeInTicks.
Proof.
  intros HT.
  assert (HL : representable obj_lifeInTicks)
    by (apply representable_bounds; change obj_lifeInTicks with 5; lia).
  pose proof (time_subtract_representable T obj_lifeInTicks HT HL) as Hp.
  split; [ exact Hp | ].
  rewrite (time_subtract_cases T (time_subtract T obj_lifeInTicks))
    by assumption.
  rewrite time_subtract_cases in * by assumption.
  change obj_lifeInTicks with 5 in *.
  unfold representable in HT. rewrite numeric_limits_max_value in *.
  destruct (Z.geb_spec T 5);
    match goal with
    | |- context [ T >=? ?x ] => destruct (Z.geb_spec T x)
    end; lia.
Qed.

(** The predicate of the sweep holds for a back-dated entry at the tick it
    was back-dated from. *)
Lemma backdated_entry_due (T : Z) (ref : queue_object_ref object_base) :
  representable T ->
  uint32_add (time_subtract T (time_subtract T obj_lifeInTicks)) 1
    = obj_lifeInTicks + 1 /\
  tick_release T (ref, time_subtract T obj_lifeInTicks) = true.
Proof.
  intros HT. destruct (backdated_distance T HT) as [_ Hd].
  assert (Hdiff : uint32_add (time_subtract T (time_subtract T obj_lifeInTicks)) 1
                  = obj_lifeInTicks + 1).
  { rewrite Hd. apply uint32_add_exact; change obj_lifeInTicks with 5;
      rewrite ?numeric_limits_max_value; lia. }
  split; [ exact Hdiff | ].
  unfold tick_release. simpl snd. cbv zeta. rewrite Hdiff. reflexivity.
Qed.

(** C9: for every representable value [T] of the counter, the entry that
    [prolong_lifetime] appends with [isPublic = false] has
    [time_subtract(T, pushedTick) + 1 = obj_lifeInTicks + 1], so the
    predicate of the sweep holds for it, and the first sweep after the
    insertion releases its reference and removes it. *)
Theorem private_entry_released_by_first_sweep (s : state) (X : object_base)
    (HT : representable (_tickCounter s)) :
  let T := _tickCounter s in
  let pushedTime := time_subtract T obj_lifeInTicks in
  uint32_add (time_subtract T pushedTime) 1 = obj_lifeInTicks + 1 /\
  obj_lifeInTicks + 1 >= obj_lifeInTicks /\
  tick_release T (Some X, pushedTime) = true /\
  exists s0 log0 s1 log1,
    prolong_lifetime X false s = Returned tt s0 log0 /\
    _tickCounter s0 = T /\
    _queue s0 = _queue s ++ [(Some X, pushedTime)] /\
    tick s0 = Returned tt s1 log1 /\
    In (release X) log1 /\
    ~ In (Some X, pushedTime) (_queue s1).
Proof.
  intros T pushedTime.
  destruct (backdated_entry_due T (Some X) HT) as [Hdiff Hdue].
  fold pushedTime in Hdiff, Hdue.
  split; [ exact Hdiff | split; [ lia | split; [ exact Hdue | ] ] ].
  rewrite prolong_lifetime_returns. fold T pushedTime.
  set (s0 := with_queue (_queue s ++ [(Some X, pushedTime)]) s).
  pose proof (tick_returns s0) as Hrun.
  match type of Hrun with
  | _ = Returned tt ?st ?lg => set (s1 := st) in *; set (log1 := lg) in *
  end.
  assert (Hin : In (Some X, pushedTime) (_queue s0))
    by (apply in_or_app; right; now left).
  destruct (release_in_tick_log s0 X pushedTime Hin Hdue s1 log1 Hrun)
    as [Hrel Hgone].
  exists s0, [lock _queue_mutex; retain X; unlock _queue_mutex], s1, log1.
  repeat split; assumption.
Qed.

(** C5: [prolong_lifetime] at counter [T] appends one entry, whose
    [pushedTick] is [T] when [isPublic] is true and
    [time_subtract(T, obj_lifeInTicks)] when it is false.  After any number
    of sweeps, if the private entry is still in its queue then the public
    one is still in its queue; the private entry is gone from the first
    sweep on, the public one from sweep [obj_lifeInTicks] on. *)
Theorem prolong_lifetime_pushed_tick (s : state) (X : object_base)
    (HT : representable (_tickCounter s)) :
  let T := _tickCounter s in
  let public := (Some X, T) in
  let private := (Some X, time_subtract T obj_lifeInTicks) in
  exists sPublic sPrivate,
    prolong_lifetime X true s =
      Returned tt sPublic [lock _queue_mutex; retain X; unlock _queue_mutex] /\
    prolong_lifetime X false s =
      Returned tt sPrivate [lock _queue_mutex; retain X; unlock _queue_mutex] /\
    _queue sPublic = _queue s ++ [public] /\
    _queue sPrivate = _queue s ++ [private] /\
    _tickCounter sPublic = T /\ _tickCounter sPrivate = T /\
    forall n,
      exists sp logp sq logq,
        sweeps n sPublic = Returned tt sp logp /\
        sweeps n sPrivate = Returned tt sq logq /\
        (In private (_queue sq) -> In public (_queue sp)) /\
        ((1 <= n)%nat -> ~ In private (_queue sq)) /\
        ((Z.to_nat obj_lifeInTicks <= n)%nat -> ~ In public (_queue sp)).
Proof.
  intros T public private.
  rewrite !prolong_lifetime_returns. fold T public private.
  set (sPublic := with_queue (_queue s ++ [public]) s).
  set (sPrivate := with_queue (_queue s ++ [private]) s).
  exists sPublic, sPrivate.
  do 6 (split; [ reflexivity | ]).
  intros n.
  destruct (sweeps_returns n sPublic) as (sp & logp & Hrunp & _ & Hqp).
  destruct (sweeps_returns n sPrivate) as (sq & logq & Hrunq & _ & Hqq).
  exists sp, logp, sq, logq.
  split; [ exact Hrunp | split; [ exact Hrunq | ] ].
  assert (Hfirst : (1 <= n)%nat -> ~ In private (_queue sq)).
  { intros Hn Hin. apply Hqq in Hin. destruct Hin as [_ Hk].
    specialize (Hk 0%nat Hn). simpl in Hk. fold T in Hk.
    destruct (backdated_entry_due T (Some X) HT) as [_ Hdue].
    change (tick_release T private = true) in Hdue.
    rewrite Hdue in Hk. discriminate Hk. }
  split; [ | split; [ exact Hfirst | ] ].
  - intros Hin. destruct n as [ | n ].
    + injection Hrunp as Hs _. subst sp.
      apply in_or_app. right. now left.
    + exfalso. apply Hfirst; [ lia | exact Hin ].
  - change (Z.to_nat obj_lifeInTicks) with 5%nat. intros Hn Hin.
    apply Hqp in Hin. destruct Hin as [_ Hk].
    specialize (Hk 4%nat Hn). simpl _tickCounter in Hk. fold T in Hk.
    unfold public in Hk. rewrite tick_release_after in Hk;
      [ discriminate Hk | exact HT | rewrite numeric_limits_max_value; lia ].
Qed.

Lemma advances_below_max (n : nat) (c : Z) :
  0 <= c < numeric_limits_max ->
  0 <= Nat.iter n (fun c => time_add c one_tick) c < numeric_limits_max.
Proof.
  intros Hc. induction n as [ | n IH ]; [ exact Hc | ].
  rewrite Nat.iter_succ. apply advance_below_max.
  unfold representable. lia.
Qed.

(** C10: when [a + b = max], [time_add a b] is [0] and not [max]; so
    [time_add max 0 = 0] and [0] is not a right identity of [time_add];
    the advance of the sweep sends [max - 1] to [0]; and a counter that
    starts at [0] and is changed only by sweeps never holds [max]. *)
Theorem time_add_never_yields_max (a b : Z)
    (Ha : representable a) (Hb : representable b)
    (Hsum : a + b = numeric_limits_max)
    (s : state) (Hs : _tickCounter s = 0) (n : nat) :
  time_add a b = 0 /\
  time_add a b <> numeric_limits_max /\
  time_add numeric_limits_max 0 = 0 /\
  time_add numeric_limits_max 0 <> numeric_limits_max /\
  time_add (numeric_limits_max - 1) one_tick = 0 /\
  exists s' log,
    sweeps n s = Returned tt s' log /\
    _tickCounter s' <> numeric_limits_max.
Proof.
  assert (Hab : time_add a b = 0).
  { rewrite time_add_cases by assumption.
    destruct (Z.ltb_spec (a + b) numeric_limits_max); lia. }
  split; [ exact Hab | split; [ rewrite Hab; discriminate | ] ].
  split; [ reflexivity | split; [ discriminate | split; [ reflexivity | ] ] ].
  destruct (sweeps_returns n s) as (s' & log & Hrun & Hc & _).
  exists s', log. split; [ exact Hrun | ].
  rewrite Hc, Hs.
  pose proof (advances_below_max n 0) as Hlt.
  rewrite numeric_limits_max_value in *. lia.
Qed.

(** C7: [u_clear] first runs [stop], which cancels the timer under
    [_timer_mutex] and leaves the queue, the counter and [_toRelease] as
    they were; only then it stores 0 in the counter and destroys the
    references.  It returns with an empty queue ([count] gives 0), an empty
    [_toRelease] and the counter at 0, and the objects it called [release]
    on are exactly those of the non-null references that the queue and
    [_toRelease] held, one call for each reference. *)
Theorem u_clear_empties_and_releases (s : state) :
  let stop_log := [lock _timer_mutex; timer_cancel; unlock _timer_mutex] in
  let held := map fst (_queue s) ++ _toRelease s in
  exists s1 s' log,
    stop s = Returned tt s1 stop_log /\
    _timer s1 = None /\ _queue s1 = _queue s /\
    _tickCounter s1 = _tickCounter s /\ _toRelease s1 = _toRelease s /\
    u_clear s = Returned tt s' (stop_log ++ log) /\
    log = store_tickCounter 0 :: flat_map destroy_ref held /\
    _queue s' = [] /\ u_count s' = 0%nat /\
    count s' = Returned 0%nat s' [lock _queue_mutex; unlock _queue_mutex] /\
    _toRelease s' = [] /\ _tickCounter s' = 0 /\ _timer s' = None /\
    flat_map (fun e => match e with release p => [p] | _ => [] end)
             (stop_log ++ log)
    = flat_map (fun r => match r with Some p => [p] | None => [] end) held.
Proof.
  intros stop_log held.
  exists (with_timer None s),
    {| _registry := _registry s; _queue := []; _tickCounter := 0;
       _timer := None; _toRelease := [] |},
    (store_tickCounter 0 :: flat_map destroy_ref held).
  split; [ reflexivity | ].
  do 4 (split; [ reflexivity | ]).
  split.
  - unfold u_clear, bind. simpl.
    unfold held. rewrite !app_nil_r, flat_map_app, flat_map_fst.
    reflexivity.
  - do 7 (split; [ reflexivity | ]).
    simpl. apply released_by_destroying.
Qed.

(** The loop of the version-0 branch always returns: it appends, in order,
    one entry for each pair whose handle the registry resolves, retaining
    the object, and skips the other pairs. *)
Lemma load_old_returns (old : queue_old Handle) :
  forall s : state,
    load_old old s =
      Returned tt
        (with_queue
           (_queue s ++
              flat_map
                (fun val =>
                   match u_getObject (_registry s) (fst val) with
                   | Some object => [(Some object, snd val)]
                   | None => []
                   end) old)
           s)
        (flat_map
           (fun val =>
              match u_getObject (_registry s) (fst val) with
              | Some object => [retain object]
              | None => []
              end) old).
Proof.
  induction old as [ | val old IH ]; intros s.
  - simpl. unfold ret, with_queue. rewrite app_nil_r. now destruct s.
  - simpl. unfold bind at 1. simpl.
    destruct (u_getObject (_registry s) (fst val)) as [object | ] eqn:Hres.
    + unfold bind at 1. simpl. rewrite IH. simpl.
      unfold with_queue. simpl. now rewrite <- app_assoc.
    + unfold bind at 1. simpl. now rewrite IH.
Qed.

(** C6: [load] reads the tick counter before it looks at the version: on
    an archive that does not start with a counter it fails whatever the
    version is.  With version 1 it then takes the queue from the archive as
    it is, in place of the entries the queue had, whose references are
    released.  With version 0 it reads (handle, tick) pairs and appends an
    entry for each pair whose handle the registry resolves; the other pairs
    are skipped and the call returns.  With any other version it never
    returns: once the counter is read the assertion fails. *)
Theorem load_by_version (s : state) (t : Z)
    (q : queue object_base) (old : queue_old Handle)
    (rest ar : archive object_base Handle) (version : Z)
    (Hfirst : forall t' rest', ar <> item_time_point t' :: rest')
    (Hversion : version <> 0 /\ version <> 1) :
  (forall v, load ar v s = Failed archive_exception) /\
  load (item_time_point t :: item_queue q :: rest) 1 s =
    Returned rest (with_queue q (with_tickCounter t s))
      (store_tickCounter t ::
         flat_map (fun val => destroy_ref (fst val)) (_queue s)) /\
  load (item_time_point t :: item_queue_old old :: rest) 0 s =
    Returned rest
      (with_queue
         (_queue s ++
            flat_map
              (fun val =>
                 match u_getObject (_registry s) (fst val) with
                 | Some object => [(Some object, snd val)]
                 | None => []
                 end) old)
         (with_tickCounter t s))
      (store_tickCounter t ::
         flat_map
           (fun val =>
              match u_getObject (_registry s) (fst val) with
              | Some object => [retain object]
              | None => []
              end) old) /\
  (forall ar', load (item_time_point t :: ar') version s =
                 Failed jc_assert_failure) /\
  (forall ar' r s' log, load ar' version s <> Returned r s' log).
Proof.
  destruct Hversion as [Hv0 Hv1].
  assert (He1 : (version =? 1) = false) by now apply Z.eqb_neq.
  assert (He0 : (version =? 0) = false) by now apply Z.eqb_neq.
  split; [ | split; [ | split; [ | split ] ] ].
  - intros v. unfold load, bind.
    destruct ar as [ | [t' | q' | old'] rest' ]; try reflexivity.
    exfalso. now apply (Hfirst t' rest').
  - unfold load, bind. simpl. now rewrite !app_nil_r.
  - unfold load, bind. simpl. rewrite load_old_returns. simpl.
    now rewrite app_nil_r.
  - intros ar'. unfold load. rewrite He1, He0. reflexivity.
  - intros ar' r s' log. unfold load. rewrite He1, He0.
    destruct ar' as [ | [t' | q' | old'] rest' ]; discriminate.
Qed.

End QueueProperties.

(** * The theorems at concrete inputs *)

Lemma representable_zero : representable 0.
Proof. apply representable_bounds. lia. Qed.

Lemma representable_three : representable 3.
Proof. apply representable_bounds. lia. Qed.

Lemma public_entry_expiry_witness :
  representable (_tickCounter (sample_queue 0)) /\
  exists s0 log0 s4 log4 s5 log5,
    prolong_lifetime 9%nat true (sample_queue 0) = Returned tt s0 log0 /\
    sweeps 4 s0 = Returned tt s4 log4 /\
    sweeps 5 s0 = Returned tt s5 (log4 ++ log5) /\
    In (Some 9%nat, 0) (_queue s4) /\
    ~ In (Some 9%nat, 0) (_queue s5) /\
    _tickCounter s4 = 4 /\ _tickCounter s5 = 5.
Proof.
  split; [ exact representable_zero | ].
  pose proof (public_entry_expiry (sample_queue 0) 9%nat representable_zero)
    as W.
  cbv zeta in W.
  destruct W as (_ & s0 & log0 & Hp & _ & Hfifth & _).
  destruct Hfifth
    as (s4 & log4 & s5 & log5 & H4 & _ & H5 & Hin & _ & _ & Hout & Hc).
  destruct (Hc eq_refl) as [Hc4 Hc5].
  exists s0, log0, s4, log4, s5, log5.
  repeat split; assumption.
Defined.

Lemma private_entry_released_by_first_sweep_witness :
  representable (_tickCounter (sample_queue 3)) /\
  tick_release 3 (Some 9%nat, time_subtract 3 obj_lifeInTicks) = true /\
  exists s0 log0 s1 log1,
    prolong_lifetime 9%nat false (sample_queue 3) = Returned tt s0 log0 /\
    tick s0 = Returned tt s1 log1 /\
    In (release 9%nat) log1 /\
    ~ In (Some 9%nat, time_subtract 3 obj_lifeInTicks) (_queue s1).
Proof.
  split; [ exact representable_three | ].
  pose proof (private_entry_released_by_first_sweep (sample_queue 3) 9%nat
                representable_three) as W.
  cbv zeta in W.
  destruct W as (_ & _ & Hdue & s0 & log0 & s1 & log1 & Hp & _ & _ & Ht & Hr & Hg).
  split; [ exact Hdue | ].
  exists s0, log0, s1, log1. repeat split; assumption.
Defined.

Lemma prolong_lifetime_pushed_tick_witness :
  representable (_tickCounter (sample_queue 3)) /\
  exists sPublic sPrivate : autorelease_queue nat nat,
    _queue sPublic = [(Some 7%nat, 3); (Some 9%nat, 3)] /\
    _queue sPrivate = [(Some 7%nat, 3); (Some 9%nat, numeric_limits_max - 2)] /\
    exists sp logp sq logq,
      sweeps 1 sPublic = Returned tt sp logp /\
      sweeps 1 sPrivate = Returned tt sq logq /\
      ~ In (Some 9%nat, time_subtract 3 obj_lifeInTicks) (_queue sq).
Proof.
  split; [ exact representable_three | ].
  pose proof (prolong_lifetime_pushed_tick (sample_queue 3) 9%nat
                representable_three) as W.
  cbv zeta in W.
  destruct W as (sPublic & sPrivate & _ & _ & Hqp & Hqq & _ & _ & Hn).
  destruct (Hn 1%nat) as (sp & logp & sq & logq & Hrp & Hrq & _ & Hgone & _).
  exists sPublic, sPrivate.
  split; [ exact Hqp | split; [ exact Hqq | ] ].
  exists sp, logp, sq, logq.
  split; [ exact Hrp | split; [ exact Hrq | ] ].
  apply Hgone. apply le_n.
Defined.

Lemma time_add_never_yields_max_witness :
  representable 3 /\ representable (numeric_limits_max - 3) /\
  3 + (numeric_limits_max - 3) = numeric_limits_max /\
  _tickCounter (sample_queue 0) = 0 /\
  time_add 3 (numeric_limits_max - 3) = 0 /\
  exists s' log,
    sweeps 7 (sample_queue 0) = Returned tt s' log /\
    _tickCounter s' <> numeric_limits_max.
Proof.
  assert (Hb : representable (numeric_limits_max - 3))
    by (apply representable_bounds; rewrite numeric_limits_max_value; lia).
  assert (Hsum : 3 + (numeric_limits_max - 3) = numeric_limits_max) by lia.
  split; [ exact representable_three | ].
  split; [ exact Hb | split; [ exact Hsum | split; [ reflexivity | ] ] ].
  destruct (time_add_never_yields_max 3 (numeric_limits_max - 3)
              representable_three Hb Hsum (sample_queue 0) eq_refl 7)
    as (Hzero & _ & _ & _ & _ & Hsweeps).
  split; [ exact Hzero | exact Hsweeps ].
Defined.

Lemma load_by_version_witness :
  (forall t' rest',
      @nil (archive_item nat nat) <> item_time_point t' :: rest') /\
  (2 <> 0 /\ 2 <> 1) /\
  load [] 0 (sample_queue 3) = Failed archive_exception /\
  load [item_time_point 12; item_queue [(Some 1%nat, 11)]] 1 (sample_queue 3) =
    Returned []
      (with_queue [(Some 1%nat, 11)] (with_tickCounter 12 (sample_queue 3)))
      [store_tickCounter 12; release 7%nat] /\
  load [item_time_point 12; item_queue_old sample_queue_old] 0 (sample_queue 3) =
    Returned []
      (with_queue [(Some 7%nat, 3); (Some 2%nat, 10); (Some 3%nat, 9)]
         (with_tickCounter 12 (sample_queue 3)))
      [store_tickCounter 12; retain 2%nat; retain 3%nat] /\
  load [item_time_point 12; item_queue [(Some 1%nat, 11)]] 2 (sample_queue 3) =
    Failed jc_assert_failure.
Proof.
  assert (Hfirst : forall t' rest',
             @nil (archive_item nat nat) <> item_time_point t' :: rest')
    by (intros t' rest' H; discriminate H).
  assert (Hversion : 2 <> 0 /\ 2 <> 1) by (split; intros H; discriminate H).
  split; [ exact Hfirst | split; [ exact Hversion | ] ].
  destruct (load_by_version (sample_queue 3) 12 [(Some 1%nat, 11)]
              sample_queue_old [] [] 2 Hfirst Hversion)
    as (Hbad & Hv1 & Hv0 & Hassert & _).
  split; [ apply Hbad | split; [ exact Hv1 | split; [ exact Hv0 | ] ] ].
  apply Hassert.
Defined.

(** * Further properties of the clock *)

Section ClockAlgebra.

Ltac clock_cases :=
  repeat match goal with
         | |- context [ ?x <? ?y ] => destruct (Z.ltb_spec x y)
         | |- context [ ?x >=? ?y ] => destruct (Z.geb_spec x y)
         end.

(** X1: on representable values [time_add] is commutative and
    associative. *)
Theorem time_add_comm_assoc (a b c : Z)
    (Ha : representable a) (Hb : representable b) (Hc : representable c) :
  time_add a b = time_add b a /\
  time_add (time_add a b) c = time_add a (time_add b c).
Proof.
  pose proof (time_add_representable a b Ha Hb) as Hab.
  pose proof (time_add_representable b c Hb Hc) as Hbc.
  split.
  - rewrite !time_add_cases by assumption.
    unfold representable in *. clock_cases; lia.
  - rewrite (time_add_cases (time_add a b) c),
      (time_add_cases a (time_add b c)) by assumption.
    rewrite !time_add_cases by assumption.
    unfold representable in Ha, Hb, Hc.
    rewrite numeric_limits_max_value in *. clock_cases; lia.
Qed.

(** X2: the other direction of the inversion, the one the first block of
    the test [time_wrapping] tries at [a = 40], [b = 20].  With
    [c = time_subtract b a], [time_add a c = b] holds exactly when [b] is
    not [max], and [time_subtract b c = a] holds exactly when [a] is not
    [max] or [b] is [max]. *)
Theorem subtract_then_add (a b : Z)
    (Ha : representable a) (Hb : representable b) :
  (time_add a (time_subtract b a) = b <-> b <> numeric_limits_max) /\
  (time_subtract b (time_subtract b a) = a <->
     a <> numeric_limits_max \/ b = numeric_limits_max).
Proof.
  pose proof (time_subtract_representable b a Hb Ha) as Hc.
  rewrite (time_add_cases a (time_subtract b a)),
    (time_subtract_cases b (time_subtract b a)) by assumption.
  rewrite !time_subtract_cases by assumption.
  unfold representable in Ha, Hb. rewrite numeric_limits_max_value in *.
  destruct (Z.geb_spec b a); clock_cases; lia.
Qed.

(** X3: on representable arguments no 32-bit operation inside [time_add]
    or [time_subtract] wraps.  Each operation they perform gives the
    integer result, so both functions return what their source expressions
    give over the integers, a value between 0 and [max]; and each returns
    [max] at one pair of arguments only: [time_add] at [(max, max)],
    [time_subtract] at [(max, 0)]. *)
Theorem clock_results_reach_max (a b : Z)
    (Ha : representable a) (Hb : representable b) :
  let exact_add :=
    if numeric_limits_max - a >? b then a + b
    else b - (numeric_limits_max - a) in
  let exact_subtract :=
    if a >=? b then a - b else numeric_limits_max - (b - a) in
  uint32_sub numeric_limits_max a = numeric_limits_max - a /\
  ((a >=? b) = true \/ uint32_sub b a = b - a) /\
  time_add a b = exact_add /\
  time_subtract a b = exact_subtract /\
  0 <= exact_add <= numeric_limits_max /\
  0 <= exact_subtract <= numeric_limits_max /\
  (time_add a b = numeric_limits_max <->
     a = numeric_limits_max /\ b = numeric_limits_max) /\
  (time_subtract a b = numeric_limits_max <->
     a = numeric_limits_max /\ b = 0).
Proof.
  intros exact_add exact_subtract.
  assert (Hma : uint32_sub numeric_limits_max a = numeric_limits_max - a)
    by (unfold representable in Ha; apply uint32_sub_exact; lia).
  assert (Hadd : time_add a b = exact_add).
  { unfold time_add, exact_add. cbv zeta. rewrite Hma.
    unfold representable in Ha, Hb.
    destruct (Z.gtb_spec (numeric_limits_max - a) b).
    - apply uint32_add_exact; lia.
    - apply uint32_sub_exact; lia. }
  assert (Hsub : time_subtract a b = exact_subtract).
  { unfold exact_subtract. now apply time_subtract_cases. }
  split; [ exact Hma | ].
  split.
  { unfold representable in Ha, Hb.
    destruct (Z.geb_spec a b); [ now left | right ].
    apply uint32_sub_exact; lia. }
  split; [ exact Hadd | split; [ exact Hsub | ] ].
  rewrite Hadd, Hsub. unfold exact_add, exact_subtract.
  unfold representable in Ha, Hb. rewrite numeric_limits_max_value in *.
  destruct (Z.gtb_spec (4294967295 - a) b); destruct (Z.geb_spec a b); lia.
Qed.

(** X4: the two distances between different ticks, one each way round the
    cycle, add up to [max]; the distance from a tick to itself is 0. *)
Theorem time_subtract_both_ways (a b : Z)
    (Ha : representable a) (Hb : representable b) (Hne : a <> b) :
  time_subtract a a = 0 /\
  time_subtract b b = 0 /\
  time_subtract a b + time_subtract b a = numeric_limits_max.
Proof.
  rewrite !time_subtract_cases by assumption.
  unfold representable in Ha, Hb. rewrite numeric_limits_max_value in *.
  clock_cases; lia.
Qed.

End ClockAlgebra.

(** * Further properties of the queue *)

Section QueueInvariants.

Context {object_base Handle : Type}.

Local Abbreviation state := (autorelease_queue object_base Handle).
Local Abbreviation entry := (queue_object_ref object_base * time_point)%type.

Ltac split_log :=
  repeat first
    [ rewrite released_cons | rewrite retained_cons
    | rewrite released_app | rewrite retained_app
    | rewrite released_nil | rewrite retained_nil ];
  cbn [app].

(** What one sweep does to the references.  The objects it retains are
    those of the entries it removes; and what it releases, together with
    what it leaves, is what it retained and what it found. *)
Lemma tick_conserves (s : state) :
  forall s' log, tick s = Returned tt s' log ->
    Permutation (released log ++ held s') (retained log ++ held s) /\
    Permutation (retained log ++ owners (map fst (_queue s')))
                (owners (map fst (_queue s))) /\
    _toRelease s' = [].
Proof.
  intros s' log Hrun. rewrite tick_returns in Hrun.
  injection Hrun as Hs Hlog. subst s' log.
  unfold held. simpl _queue. simpl _toRelease.
  set (due := filter (tick_release (_tickCounter s)) (_queue s)).
  set (kept := filter (fun val => negb (tick_release (_tickCounter s) val))
                      (_queue s)).
  assert (Hsplit :
            Permutation (owners (map fst due) ++ owners (map fst kept))
                        (owners (map fst (_queue s)))).
  { rewrite <- owners_app, <- map_app. unfold owners.
    apply Permutation_flat_map, Permutation_map, filter_split. }
  split_log.
  rewrite !retained_copy, !released_copy, !retained_destroy, !released_destroy.
  cbn [app]. rewrite !app_nil_r, !owners_app.
  split; [ | split; [ exact Hsplit | reflexivity ] ].
  rewrite <- !app_assoc. apply Permutation_app_head.
  rewrite <- Hsplit. apply Permutation_app_comm.
Qed.

Lemma backdated_below_max (T : Z) :
  0 <= T < numeric_limits_max ->
  0 <= time_subtract T obj_lifeInTicks < numeric_limits_max.
Proof.
  intros HT. rewrite time_subtract_cases.
  - change obj_lifeInTicks with 5. rewrite numeric_limits_max_value in *.
    destruct (Z.geb_spec T 5); lia.
  - unfold representable. lia.
  - apply representable_bounds. change obj_lifeInTicks with 5. lia.
Qed.

(** One use of the queue always returns.  It keeps the balance of the
    references, and it keeps the counter and the pushed ticks below [max]
    and [_toRelease] empty if they were. *)
Lemma run_call_step (c : call object_base) (s : state) :
  exists s' log,
    run_call c s = Returned tt s' log /\
    Permutation (released log ++ held s') (retained log ++ held s) /\
    (_toRelease s = [] ->
     0 <= _tickCounter s < numeric_limits_max ->
     Forall (fun e : entry => 0 <= snd e < numeric_limits_max) (_queue s) ->
     _toRelease s' = [] /\
     0 <= _tickCounter s' < numeric_limits_max /\
     Forall (fun e : entry => 0 <= snd e < numeric_limits_max) (_queue s')).
Proof.
  destruct c as [object isPublic | | | | | e]; simpl run_call.
  - rewrite prolong_lifetime_returns. eexists; eexists.
    split; [ reflexivity | split ].
    + unfold held. simpl _queue. simpl _toRelease. split_log.
      rewrite map_app, !owners_app. simpl. rewrite <- app_assoc.
      symmetry. apply Permutation_middle.
    + simpl. intros Hr Hc Hq. split; [ exact Hr | split; [ exact Hc | ] ].
      apply Forall_app. split; [ exact Hq | ].
      constructor; [ | constructor ]. simpl.
      destruct isPublic; [ exact Hc | now apply backdated_below_max ].
  - exists s, [lock _queue_mutex; unlock _queue_mutex].
    split; [ reflexivity | split; [ apply Permutation_refl | tauto ] ].
  - exists (with_timer (Some tick_duration_millis) s),
      [lock _timer_mutex; timer_async_wait tick_duration_millis;
       unlock _timer_mutex].
    split; [ reflexivity | split; [ apply Permutation_refl | tauto ] ].
  - exists (with_timer None s),
      [lock _timer_mutex; timer_cancel; unlock _timer_mutex].
    split; [ reflexivity | split; [ apply Permutation_refl | tauto ] ].
  - eexists; eexists. split; [ unfold u_clear, bind; simpl; reflexivity | ].
    split.
    + unfold held. simpl _queue. simpl _toRelease. split_log.
      rewrite !app_nil_r, !flat_map_fst, !released_destroy,
        !retained_destroy, owners_app.
      simpl. rewrite ?app_nil_r. apply Permutation_refl.
    + intros _ _ _. simpl. rewrite numeric_limits_max_value.
      split; [ reflexivity | split; [ lia | constructor ] ].
  - unfold timer_handler. destruct (e =? 0).
    + pose proof (tick_returns s) as Hrun.
      destruct (tick_conserves s _ _ Hrun) as (Hperm & _ & _).
      rewrite Hrun. eexists; eexists. split; [ reflexivity | split ].
      * exact Hperm.
      * simpl. intros _ Hc Hq.
        split; [ reflexivity | split ].
        -- apply advance_below_max. unfold representable. lia.
        -- apply Forall_forall. intros x Hx. apply filter_In in Hx.
           destruct Hx as [Hx _]. revert x Hx. now apply Forall_forall.
    + exists s, []. split; [ reflexivity | ].
      split; [ apply Permutation_refl | tauto ].
Qed.

Lemma run_calls_steps (history : list (call object_base)) :
  forall s : state,
  exists s' log,
    run_calls history s = Returned tt s' log /\
    Permutation (released log ++ held s') (retained log ++ held s) /\
    (_toRelease s = [] ->
     0 <= _tickCounter s < numeric_limits_max ->
     Forall (fun e : entry => 0 <= snd e < numeric_limits_max) (_queue s) ->
     _toRelease s' = [] /\
     0 <= _tickCounter s' < numeric_limits_max /\
     Forall (fun e : entry => 0 <= snd e < numeric_limits_max) (_queue s')).
Proof.
  induction history as [ | c rest IH ]; intros s.
  - exists s, []. split; [ reflexivity | ].
    split; [ apply Permutation_refl | tauto ].
  - destruct (run_call_step c s) as (s1 & log1 & Hrun1 & Hbal1 & Hinv1).
    destruct (IH s1) as (s2 & log2 & Hrun2 & Hbal2 & Hinv2).
    exists s2, (log1 ++ log2). split; [ | split ].
    + simpl. unfold bind. now rewrite Hrun1, Hrun2.
    + rewrite released_app, retained_app, <- !app_assoc.
      rewrite Hbal2.
      rewrite (Permutation_app_swap_app (released log1) (retained log2)).
      rewrite Hbal1.
      apply Permutation_app_swap_app.
    + intros Hr Hc Hq. destruct (Hinv1 Hr Hc Hq) as (Hr1 & Hc1 & Hq1).
      now apply Hinv2.
Qed.

(** X5: whatever the callers do with a queue (prolong, count, start, stop,
    clear, completions of the timer with or without an error), every call
    returns, and the objects retained so far are, counted with
    multiplicity, the objects released so far together with the objects the
    queue still holds a reference to: no reference is lost and none is
    released twice.  Started from the constructor, the queue holds nothing,
    so the retained objects are the released and the held ones. *)
Theorem references_balance (history : list (call object_base)) (s : state)
    (registry : object_registry object_base Handle) :
  (exists s' log,
      run_calls history s = Returned tt s' log /\
      Permutation (released log ++ held s') (retained log ++ held s)) /\
  (exists s' log,
      run_calls history (constructed registry) = Returned tt s' log /\
      Permutation (released log ++ held s') (retained log)).
Proof.
  split.
  - destruct (run_calls_steps history s) as (s' & log & Hrun & Hbal & _).
    now exists s', log.
  - destruct (run_calls_steps history (constructed registry))
      as (s' & log & Hrun & Hbal & _).
    exists s', log. split; [ exact Hrun | ].
    unfold held in Hbal at 2. simpl in Hbal. now rewrite app_nil_r in Hbal.
Qed.

Lemma uint32_add_one (d : Z) :
  0 <= d <= numeric_limits_max ->
  uint32_add d 1 = if d =? numeric_limits_max then 0 else d + 1.
Proof.
  intros Hd. destruct (Z.eqb_spec d numeric_limits_max) as [-> | Hne].
  - reflexivity.
  - apply uint32_add_exact; lia.
Qed.

(** X6: the predicate of the sweep, without the machine arithmetic.  An
    entry pushed at [p] is due at counter [c] exactly when the distance
    [time_subtract c p] is at least [obj_lifeInTicks - 1], except at
    [c = max], [p = 0]: there the distance is [max], [+ 1] overflows to 0,
    and the entry is kept. *)
Theorem tick_release_exact (c p : Z) (ref : queue_object_ref object_base)
    (Hc : representable c) (Hp : representable p) :
  tick_release c (ref, p) = true <->
  obj_lifeInTicks - 1 <= time_subtract c p /\
  ~ (c = numeric_limits_max /\ p = 0).
Proof.
  pose proof (time_subtract_representable c p Hc Hp) as Hd.
  unfold tick_release. simpl snd. cbv zeta.
  rewrite uint32_add_one by exact Hd.
  rewrite Z.geb_leb, Z.leb_le.
  revert Hd. rewrite time_subtract_cases by assumption.
  unfold representable in *. change obj_lifeInTicks with 5.
  rewrite numeric_limits_max_value in *. intros Hd.
  destruct (Z.geb_spec c p);
    match goal with
    | |- context [ ?x =? ?y ] => destruct (Z.eqb_spec x y)
    end; lia.
Qed.

(** X7: a queue that is constructed and then only used through its member
    functions keeps its counter and every pushed tick in [0, max) and
    [_toRelease] empty between calls.  In such a state the [+ 1] of the
    sweep never overflows: its predicate is
    [time_subtract c p + 1 >= obj_lifeInTicks] over the integers. *)
Theorem reachable_states_below_max
    (registry : object_registry object_base Handle)
    (history : list (call object_base)) :
  construct registry =
    Returned tt (constructed registry)
      [lock _timer_mutex; timer_async_wait tick_duration_millis;
       unlock _timer_mutex] /\
  exists s' log,
    run_calls history (constructed registry) = Returned tt s' log /\
    _toRelease s' = [] /\
    0 <= _tickCounter s' < numeric_limits_max /\
    Forall (fun e : entry => 0 <= snd e < numeric_limits_max) (_queue s') /\
    Forall
      (fun e : entry =>
         tick_release (_tickCounter s') e =
           (time_subtract (_tickCounter s') (snd e) + 1 >=? obj_lifeInTicks))
      (_queue s').
Proof.
  split; [ reflexivity | ].
  destruct (run_calls_steps history (constructed registry))
    as (s' & log & Hrun & _ & Hinv).
  destruct Hinv as (Hr & Hc & Hq).
  - reflexivity.
  - simpl. rewrite numeric_limits_max_value. lia.
  - constructor.
  - exists s', log. repeat (split; [ assumption | ]).
    apply Forall_forall. intros e Hin.
    rewrite Forall_forall in Hq. specialize (Hq e Hin).
    unfold tick_release. cbv zeta. f_equal.
    assert (Hrc : representable (_tickCounter s'))
      by (unfold representable; lia).
    assert (Hrp : representable (snd e)) by (unfold representable; lia).
    pose proof (time_subtract_representable _ _ Hrc Hrp) as Hd.
    rewrite uint32_add_one by exact Hd.
    revert Hd. rewrite time_subtract_cases by assumption.
    unfold representable. intros Hd.
    destruct (Z.geb_spec (_tickCounter s') (snd e));
      match goal with
      | |- context [ ?x =? ?y ] => destruct (Z.eqb_spec x y)
      end; lia.
Qed.

Lemma release_when_old (c p : Z) (ref : queue_object_ref object_base) :
  representable c -> representable p -> c < numeric_limits_max ->
  obj_lifeInTicks - 1 <= time_subtract c p ->
  tick_release c (ref, p) = true.
Proof.
  intros Hc Hp Hlt Hold.
  pose proof (time_subtract_representable c p Hc Hp) as Hd.
  unfold tick_release. simpl snd. cbv zeta.
  rewrite uint32_add_one by exact Hd.
  rewrite Z.geb_leb. apply Z.leb_le.
  revert Hd Hold. rewrite time_subtract_cases by assumption.
  unfold representable in *. change obj_lifeInTicks with 5.
  rewrite numeric_limits_max_value in *. intros Hd Hold.
  destruct (Z.geb_spec c p);
    match goal with
    | |- context [ ?x =? ?y ] => destruct (Z.eqb_spec x y)
    end; lia.
Qed.

(** An entry that a sweep keeps is one tick older at the next sweep. *)
Lemma survive_step (c p lo : Z) (ref : queue_object_ref object_base) :
  representable c -> representable p ->
  tick_release c (ref, p) = false ->
  lo <= time_subtract c p ->
  c < numeric_limits_max \/ lo <= 0 ->
  lo + 1 <= time_subtract (time_add c one_tick) p.
Proof.
  intros Hc Hp Hkeep Hlo Hside.
  pose proof (time_subtract_representable c p Hc Hp) as Hd.
  pose proof (advance_below_max c Hc) as Hadv.
  assert (Hc' : representable (time_add c one_tick))
    by (unfold representable; lia).
  unfold tick_release in Hkeep. simpl snd in Hkeep. cbv zeta in Hkeep.
  rewrite uint32_add_one in Hkeep by exact Hd.
  rewrite Z.geb_leb in Hkeep. apply Z.leb_gt in Hkeep.
  revert Hd Hlo Hkeep. rewrite !time_subtract_cases by assumption.
  clear Hadv Hc'. rewrite advance_cases by assumption.
  unfold representable in *. change obj_lifeInTicks with 5.
  rewrite numeric_limits_max_value in *.
  destruct (Z.geb_spec c p);
    destruct (Z.ltb_spec c (4294967295 - 1));
    try destruct (Z.eqb_spec c (4294967295 - 1));
    repeat match goal with
      | |- context [ ?x >=? ?y ] => destruct (Z.geb_spec x y)
      | |- context [ ?x =? ?y ] => destruct (Z.eqb_spec x y)
      end; intros; lia.
Qed.

(** Whatever the counter and the pushed tick, one of [obj_lifeInTicks]
    sweeps in a row finds the entry due. *)
Lemma due_within_lifetime (c p : Z) (ref : queue_object_ref object_base) :
  representable c -> representable p ->
  exists k, (k < 5)%nat /\
    tick_release (Nat.iter k (fun c => time_add c one_tick) c) (ref, p) = true.
Proof.
  intros Hc Hp.
  pose proof (time_subtract_representable c p Hc Hp) as [Hd0 _].
  set (c1 := time_add c one_tick).
  set (c2 := time_add c1 one_tick).
  set (c3 := time_add c2 one_tick).
  set (c4 := time_add c3 one_tick).
  pose proof (advance_below_max c Hc) as H1. fold c1 in H1.
  assert (Hc1 : representable c1) by (unfold representable; lia).
  pose proof (advance_below_max c1 Hc1) as H2. fold c2 in H2.
  assert (Hc2 : representable c2) by (unfold representable; lia).
  pose proof (advance_below_max c2 Hc2) as H3. fold c3 in H3.
  assert (Hc3 : representable c3) by (unfold representable; lia).
  pose proof (advance_below_max c3 Hc3) as H4. fold c4 in H4.
  assert (Hc4 : representable c4) by (unfold representable; lia).
  destruct (tick_release c (ref, p)) eqn:K0;
    [ exists 0%nat; split; [ lia | exact K0 ] | ].
  pose proof (survive_step c p 0 ref Hc Hp K0 Hd0 (or_intror (Z.le_refl 0)))
    as D1. fold c1 in D1.
  destruct (tick_release c1 (ref, p)) eqn:K1;
    [ exists 1%nat; split; [ lia | exact K1 ] | ].
  pose proof (survive_step c1 p 1 ref Hc1 Hp K1 D1 (or_introl (proj2 H1)))
    as D2. fold c2 in D2.
  destruct (tick_release c2 (ref, p)) eqn:K2;
    [ exists 2%nat; split; [ lia | exact K2 ] | ].
  pose proof (survive_step c2 p 2 ref Hc2 Hp K2 D2 (or_introl (proj2 H2)))
    as D3. fold c3 in D3.
  destruct (tick_release c3 (ref, p)) eqn:K3;
    [ exists 3%nat; split; [ lia | exact K3 ] | ].
  pose proof (survive_step c3 p 3 ref Hc3 Hp K3 D3 (or_introl (proj2 H3)))
    as D4. fold c4 in D4.
  exists 4%nat. split; [ lia | ].
  apply (release_when_old c4 p ref Hc4 Hp (proj2 H4)).
  change obj_lifeInTicks with 5. lia.
Qed.

(** Sweeps retain the objects of the entries they remove, once each; and
    what they release, together with what they leave, is what they retained
    and what they found. *)
Lemma sweeps_conserve (n : nat) :
  forall (s s' : state) log,
    sweeps n s = Returned tt s' log ->
    Permutation (released log ++ held s') (retained log ++ held s) /\
    Permutation (retained log ++ owners (map fst (_queue s')))
                (owners (map fst (_queue s))) /\
    ((1 <= n)%nat -> _toRelease s' = []).
Proof.
  induction n as [ | n IH ]; intros s s' log Hrun.
  - injection Hrun as Hs Hlog. subst s' log.
    split; [ apply Permutation_refl | ].
    split; [ apply Permutation_refl | lia ].
  - rewrite sweeps_succ in Hrun.
    assert (Htick : exists s1 log1, tick s = Returned tt s1 log1)
      by (rewrite tick_returns; eexists; eexists; reflexivity).
    destruct Htick as (s1 & log1 & Htick). rewrite Htick in Hrun.
    destruct (tick_conserves s _ _ Htick) as (Hbal1 & Hret1 & Hnil1).
    destruct (sweeps_returns n s1) as (s2 & log2 & Hrun2 & _).
    rewrite Hrun2 in Hrun. injection Hrun as Hs Hlog. subst s' log.
    destruct (IH s1 s2 log2 Hrun2) as (Hbal2 & Hret2 & Hnil2).
    rewrite retained_app, released_app.
    split; [ | split ].
    + rewrite <- !app_assoc, Hbal2.
      rewrite (Permutation_app_swap_app (released log1) (retained log2)).
      rewrite Hbal1.
      apply Permutation_app_swap_app.
    + rewrite <- app_assoc, Hret2. exact Hret1.
    + intros _. destruct n as [ | n ].
      * injection Hrun2 as Hs _. now subst s2.
      * apply Hnil2. lia.
Qed.

(** X8: nothing stays in the queue for more than [obj_lifeInTicks] sweeps.
    From any counter and any pushed ticks, [obj_lifeInTicks] sweeps in a row
    leave the queue and [_toRelease] empty.  Meanwhile every entry has been
    removed once: the objects retained are those the entries referred to
    (the copies the sweeps make), and the objects released are the retained
    ones together with those the queue and [_toRelease] held a reference
    to, each as often as it was held. *)
Theorem queue_empty_after_lifetime (s : state)
    (Hc : representable (_tickCounter s))
    (Hq : Forall (fun e : entry => representable (snd e)) (_queue s)) :
  exists s' log,
    sweeps (Z.to_nat obj_lifeInTicks) s = Returned tt s' log /\
    _queue s' = [] /\ _toRelease s' = [] /\
    Permutation (retained log) (owners (map fst (_queue s))) /\
    Permutation (released log) (retained log ++ held s).
Proof.
  change (Z.to_nat obj_lifeInTicks) with 5%nat.
  destruct (sweeps_returns 5 s) as (s' & log & Hrun & _ & Hleft).
  destruct (sweeps_conserve 5 s s' log Hrun) as (Hbal & Hret & Hrel).
  assert (Hempty : _queue s' = []).
  { destruct (_queue s') as [ | [ref p] rest ] eqn:Hqs; [ reflexivity | ].
    exfalso.
    destruct (Hleft (ref, p)) as [Hin _].
    destruct Hin as [Hin Hkeep]; [ now left | ].
    rewrite Forall_forall in Hq. specialize (Hq _ Hin). simpl in Hq.
    destruct (due_within_lifetime (_tickCounter s) p ref Hc Hq)
      as (k & Hk & Hdue).
    exact (eq_true_false_abs _ Hdue (Hkeep k Hk)). }
  exists s', log.
  split; [ exact Hrun | split; [ exact Hempty | ] ].
  assert (Hnil : _toRelease s' = []) by (apply Hrel; lia).
  split; [ exact Hnil | ].
  unfold held in Hbal at 1. rewrite Hempty, Hnil in Hbal.
  rewrite Hempty in Hret.
  simpl in Hbal, Hret. rewrite app_nil_r in Hbal, Hret.
  split; [ exact Hret | exact Hbal ].
Qed.

(** X9: [lifetimeDiff] counts the sweeps since a tick was taken: [k] sweeps
    after the counter was [T], with [k < max], [lifetimeDiff T] is [k],
    also when the counter has wrapped in between. *)
Theorem lifetimeDiff_counts_sweeps (s : state) (k : nat)
    (HT : representable (_tickCounter s))
    (Hk : Z.of_nat k < numeric_limits_max) :
  exists s' log,
    sweeps k s = Returned tt s' log /\
    lifetimeDiff s' (_tickCounter s) = Z.of_nat k.
Proof.
  destruct (sweeps_returns k s) as (s' & log & Hrun & Hcount & _).
  exists s', log. split; [ exact Hrun | ].
  unfold lifetimeDiff. rewrite Hcount.
  now destruct (elapsed_after_advances k (_tickCounter s) HT Hk)
    as (_ & _ & Hsub).
Qed.

Lemma retained_migrated (registry : object_registry object_base Handle)
    (old : queue_old Handle) :
  retained
    (flat_map
       (fun val =>
          match u_getObject registry (fst val) with
          | Some object => [retain object]
          | None => []
          end) old)
  = owners
      (map fst
         (flat_map
            (fun val =>
               match u_getObject registry (fst val) with
               | Some object => [(Some object, snd val)]
               | None => []
               end) old)) /\
  released
    (flat_map
       (fun val =>
          match u_getObject registry (fst val) with
          | Some object => [retain object]
          | None => []
          end) old) = [].
Proof.
  induction old as [ | val old [IHr IHd] ]; [ split; reflexivity | ].
  simpl. rewrite retained_app, released_app, map_app, owners_app, IHr, IHd.
  destruct (u_getObject registry (fst val)); split; reflexivity.
Qed.

(** X11: the migration of the legacy format.  Into an empty queue, [load]
    with version 0 of (handle, tick) pairs ends in the same state as [load]
    with version 1 of the entries obtained by resolving the handles; it
    retains exactly the objects it enqueues and releases none.  When every
    handle resolves, the ticks of the entries are those of the pairs, in
    order. *)
Theorem load_migration_agrees (s : state) (t : Z) (old : queue_old Handle)
    (rest : archive object_base Handle) (Hempty : _queue s = []) :
  let migrated : queue object_base :=
    flat_map
      (fun val =>
         match u_getObject (_registry s) (fst val) with
         | Some object => [(Some object, snd val)]
         | None => []
         end) old in
  exists s' log0,
    load (item_time_point t :: item_queue_old old :: rest) 0 s =
      Returned rest s' log0 /\
    load (item_time_point t :: item_queue migrated :: rest) 1 s =
      Returned rest s' [store_tickCounter t] /\
    _queue s' = migrated /\ _tickCounter s' = t /\
    retained log0 = owners (map fst migrated) /\
    released log0 = [] /\
    ((forall val, In val old -> u_getObject (_registry s) (fst val) <> None) ->
     map snd migrated = map snd old).
Proof.
  intros migrated.
  exists (with_queue migrated (with_tickCounter t s)),
    (store_tickCounter t ::
       flat_map
         (fun val =>
            match u_getObject (_registry s) (fst val) with
            | Some object => [retain object]
            | None => []
            end) old).
  split.
  { unfold load, bind. simpl. rewrite load_old_returns. simpl.
    rewrite Hempty, app_nil_r. reflexivity. }
  split.
  { unfold load, bind. simpl. rewrite Hempty. reflexivity. }
  split; [ reflexivity | split; [ reflexivity | ] ].
  destruct (retained_migrated (_registry s) old) as [Hret Hrel].
  split; [ rewrite retained_cons; exact Hret | ].
  split; [ rewrite released_cons; exact Hrel | ].
  intros Hall. unfold migrated. clear Hret Hrel.
  induction old as [ | val old IH ]; [ reflexivity | ].
  simpl. rewrite map_app.
  destruct (u_getObject (_registry s) (fst val)) eqn:Hres.
  - simpl. f_equal. apply IH. intros v Hv. apply Hall. now right.
  - exfalso. apply (Hall val); [ now left | exact Hres ].
Qed.

End QueueInvariants.

(** * The further properties at concrete inputs *)

Lemma representable_max : representable numeric_limits_max.
Proof. apply representable_bounds. rewrite numeric_limits_max_value. lia. Qed.

Lemma time_add_comm_assoc_witness :
  representable numeric_limits_max /\ representable 3 /\ representable 0 /\
  time_add numeric_limits_max 3 = time_add 3 numeric_limits_max /\
  time_add (time_add numeric_limits_max 3) 0 =
    time_add numeric_limits_max (time_add 3 0).
Proof.
  split; [ exact representable_max | ].
  split; [ exact representable_three | split; [ exact representable_zero | ] ].
  exact (time_add_comm_assoc numeric_limits_max 3 0 representable_max
           representable_three representable_zero).
Defined.

Lemma subtract_then_add_witness :
  representable 3 /\ representable 0 /\
  (time_add 3 (time_subtract 0 3) = 0 <-> 0 <> numeric_limits_max) /\
  (time_subtract 0 (time_subtract 0 3) = 3 <->
     3 <> numeric_limits_max \/ 0 = numeric_limits_max).
Proof.
  split; [ exact representable_three | split; [ exact representable_zero | ] ].
  exact (subtract_then_add 3 0 representable_three representable_zero).
Defined.

Lemma clock_results_reach_max_witness :
  representable numeric_limits_max /\ representable 0 /\
  time_add numeric_limits_max 0 = 0 - (numeric_limits_max - numeric_limits_max) /\
  time_subtract numeric_limits_max 0 = numeric_limits_max - 0 /\
  (time_add numeric_limits_max 0 = numeric_limits_max <->
     numeric_limits_max = numeric_limits_max /\ 0 = numeric_limits_max) /\
  (time_subtract numeric_limits_max 0 = numeric_limits_max <->
     numeric_limits_max = numeric_limits_max /\ 0 = 0).
Proof.
  split; [ exact representable_max | split; [ exact representable_zero | ] ].
  pose proof (clock_results_reach_max numeric_limits_max 0 representable_max
                representable_zero) as W.
  cbv zeta in W.
  destruct W as (_ & _ & Hadd & Hsub & _ & _ & Hamax & Hsmax).
  split; [ exact Hadd | split; [ exact Hsub | ] ].
  split; [ exact Hamax | exact Hsmax ].
Defined.

Lemma time_subtract_both_ways_witness :
  representable 3 /\ representable 0 /\ 3 <> 0 /\
  time_subtract 3 3 = 0 /\
  time_subtract 0 0 = 0 /\
  time_subtract 3 0 + time_subtract 0 3 = numeric_limits_max.
Proof.
  assert (Hne : 3 <> 0) by (intros H; discriminate H).
  split; [ exact representable_three | split; [ exact representable_zero | ] ].
  split; [ exact Hne | ].
  exact (time_subtract_both_ways 3 0 representable_three representable_zero
           Hne).
Defined.

Lemma tick_release_exact_witness :
  representable numeric_limits_max /\ representable 0 /\
  (tick_release numeric_limits_max (Some 7%nat, 0) = true <->
   obj_lifeInTicks - 1 <= time_subtract numeric_limits_max 0 /\
   ~ (numeric_limits_max = numeric_limits_max /\ 0 = 0)).
Proof.
  split; [ exact representable_max | split; [ exact representable_zero | ] ].
  exact (tick_release_exact numeric_limits_max 0 (Some 7%nat)
           representable_max representable_zero).
Defined.

Lemma sample_queue_ticks_representable (c : Z) :
  Forall (fun e : queue_object_ref nat * time_point => representable (snd e))
         (_queue (sample_queue c)).
Proof. constructor; [ exact representable_three | constructor ]. Qed.

Lemma queue_empty_after_lifetime_witness :
  representable (_tickCounter (sample_queue numeric_limits_max)) /\
  Forall (fun e : queue_object_ref nat * time_point => representable (snd e))
         (_queue (sample_queue numeric_limits_max)) /\
  exists s' log,
    sweeps 5 (sample_queue numeric_limits_max) = Returned tt s' log /\
    _queue s' = [] /\
    Permutation (retained log) [7%nat] /\
    Permutation (released log) (retained log ++ [7%nat]).
Proof.
  split; [ exact representable_max | ].
  split; [ apply sample_queue_ticks_representable | ].
  destruct (queue_empty_after_lifetime (sample_queue numeric_limits_max)
              representable_max
              (sample_queue_ticks_representable numeric_limits_max))
    as (s' & log & Hrun & Hq & _ & Hret & Hrel).
  exists s', log.
  split; [ exact Hrun | split; [ exact Hq | ] ].
  split; [ exact Hret | exact Hrel ].
Defined.

Lemma lifetimeDiff_counts_sweeps_witness :
  representable (_tickCounter (sample_queue numeric_limits_max)) /\
  Z.of_nat 6 < numeric_limits_max /\
  exists s' log,
    sweeps 6 (sample_queue numeric_limits_max) = Returned tt s' log /\
    lifetimeDiff s' numeric_limits_max = 6.
Proof.
  assert (Hk : Z.of_nat 6 < numeric_limits_max)
    by (rewrite numeric_limits_max_value; simpl; lia).
  split; [ exact representable_max | split; [ exact Hk | ] ].
  exact (lifetimeDiff_counts_sweeps (sample_queue numeric_limits_max) 6
           representable_max Hk).
Defined.

Lemma load_migration_agrees_witness :
  _queue (with_queue [] (sample_queue 3)) = [] /\
  (forall val : nat * time_point,
      In val [(4%nat, 10); (6%nat, 9)] ->
      u_getObject sample_registry (fst val) <> None) /\
  exists s' log0,
    load [item_time_point 12; item_queue_old [(4%nat, 10); (6%nat, 9)]] 0
         (with_queue [] (sample_queue 3)) = Returned [] s' log0 /\
    load [item_time_point 12; item_queue [(Some 2%nat, 10); (Some 3%nat, 9)]] 1
         (with_queue [] (sample_queue 3)) = Returned [] s' [store_tickCounter 12] /\
    retained log0 = [2%nat; 3%nat] /\
    map snd (_queue s') = [10; 9].
Proof.
  assert (Hall : forall val : nat * time_point,
             In val [(4%nat, 10); (6%nat, 9)] ->
             u_getObject sample_registry (fst val) <> None).
  { intros val [H | [H | []]]; subst val; discriminate. }
  split; [ reflexivity | split; [ exact Hall | ] ].
  pose proof (load_migration_agrees (with_queue [] (sample_queue 3)) 12
                [(4%nat, 10); (6%nat, 9)] [] eq_refl) as W.
  cbv zeta in W.
  destruct W as (s' & log0 & H0 & H1 & Hq & _ & Hret & _ & Hticks).
  exists s', log0.
  split; [ exact H0 | split; [ exact H1 | split; [ exact Hret | ] ] ].
  rewrite Hq. exact (Hticks Hall).
Defined.
